(** * A Turing-machine simulator: transition table, tape and run loop

    Shallow embedding of [src/config_loader.py] (the [Transition] and
    [MachineSpecification] records, [_transition_key], [transition_map])
    and of [src/machine.py] ([Tape], [TuringMachine._next_transition],
    [TuringMachine.run]).

    Conventions.
    - A Python [str] is a [string]; one character of the input string is
      one [ascii] and becomes the one-character symbol [String ch ""].
    - A Python [int] is a [Z]; [Optional[str]] is [option string].
    - A [Dict[K, V]] is a [gmap K V]; [d.get(k)] is [d !! k] and
      [d[k] = v] is [<[k := v]> d].
    - A method returns the object it was called on next to its result
      ([self] is passed in and handed back), so that what a call leaves
      behind in a tape or in the machine is part of the model. *)

From Stdlib Require Import ZArith Lia.
From stdpp Require Import base option list strings gmap.

Local Open Scope string_scope.
Local Open Scope Z_scope.

(** ** config_loader.py *)

Module Config.

(** [@dataclass(frozen=True) class Transition] *)
Record Transition := mkTransition {
  initial_state : string;
  read_symbol : string;
  next_state : string;
  write_symbol : string;
  movement : string;
  initial_memory : option string;
  next_memory : option string
}.

(** [@dataclass(frozen=True) class MachineSpecification] *)
Record MachineSpecification := mkSpec {
  states : list string;
  spec_initial_state : string;
  final_states : list string;
  input_alphabet : list string;
  tape_alphabet : list string;
  blank_symbol : string;
  transitions : list Transition;
  simulation_strings : list string;
  memory_alphabet : option (list string);
  spec_initial_memory : option string
}.

(** Python truth value of an [Optional[str]]: [None] and the empty string
    are falsy, every other string is truthy. *)
Definition truthy (memory : option string) : bool :=
  match memory with
  | None => false
  | Some EmptyString => false
  | Some (String _ _) => true
  end.

(** [memory or '*'] *)
Definition memory_or_star (memory : option string) : string :=
  match memory with
  | Some m => if truthy memory then m else "*"
  | None => "*"
  end.

(** [def _transition_key(state, symbol, memory):
       return f"{state}|{symbol}|{memory or '*'}"] *)
Definition _transition_key (state symbol : string) (memory : option string)
  : string :=
  state +:+ "|" +:+ symbol +:+ "|" +:+ memory_or_star memory.

(** The key under which [transition_map] files a rule. *)
Definition key_of (transition : Transition) : string :=
  _transition_key (initial_state transition) (read_symbol transition)
                  (initial_memory transition).

(** [MachineSpecification.transition_map]: the [for] loop over
    [self.transitions], with [mapping[key] = transition] in its body. *)
Definition transition_map_loop
  (mapping : gmap string Transition) (ts : list Transition)
  : gmap string Transition :=
  foldl (fun mapping transition => <[key_of transition := transition]> mapping)
        mapping ts.

Definition transition_map (self : MachineSpecification)
  : gmap string Transition :=
  transition_map_loop ∅ (transitions self).

End Config.

Export Config.

(** ** machine.py: the machine object and transition resolution *)

(** [class TuringMachine]: the two attributes set by [__init__]. *)
Record TuringMachine := mkMachine {
  spec : MachineSpecification;
  tm_transition_map : gmap string Transition
}.

(** [TuringMachine.__init__] *)
Definition TuringMachine_init (specification : MachineSpecification)
  : TuringMachine :=
  {| spec := specification;
     tm_transition_map := transition_map specification |}.

(** [TuringMachine._next_transition] *)
Definition _next_transition (self : TuringMachine)
  (state symbol : string) (memory : option string)
  : option Transition * TuringMachine :=
  let key := _transition_key state symbol memory in
  let transition := tm_transition_map self !! key in
  match transition with
  | Some t => (Some t, self)
  | None => (tm_transition_map self !! _transition_key state symbol None, self)
  end.

(** ** machine.py: the tape *)

Module Tape.

(** [class Tape]: the attributes set by [__init__]. *)
Record t := mk {
  blank_symbol : string;
  cells : gmap Z string;
  min_index : Z;
  max_index : Z
}.

(** The [for index, symbol in enumerate(initial_input)] loop of
    [__init__]; [index] is the position of the next character. *)
Fixpoint init_loop (index : Z) (initial_input : string) (self : t) : t :=
  match initial_input with
  | EmptyString => self
  | String symbol rest =>
      init_loop (index + 1) rest
        {| blank_symbol := blank_symbol self;
           cells := <[index := String symbol EmptyString]> (cells self);
           min_index := min_index self;
           max_index := index |}
  end.

(** [Tape.__init__] *)
Definition init (blank : string) (initial_input : string) : t :=
  let self :=
    {| blank_symbol := blank; cells := ∅; min_index := 0; max_index := 0 |} in
  let self := init_loop 0 initial_input self in
  match initial_input with
  | EmptyString =>
      {| blank_symbol := blank_symbol self;
         cells := <[0 := blank]> (cells self);
         min_index := min_index self;
         max_index := max_index self |}
  | String _ _ => self
  end.

(** [Tape.read]: [self.cells.get(position, self.blank_symbol)] *)
Definition read (self : t) (position : Z) : string * t :=
  (default (blank_symbol self) (cells self !! position), self).

(** [Tape.write] *)
Definition write (self : t) (position : Z) (symbol : string) : t :=
  {| blank_symbol := blank_symbol self;
     cells := <[position := symbol]> (cells self);
     min_index := Z.min (min_index self) position;
     max_index := Z.max (max_index self) position |}.

(** Python's [range(start, stop)]. *)
Definition range (start stop : Z) : list Z := seqZ start (stop - start).

(** One pass of the [for index in range(start, end + 1)] loop of [view]. *)
Definition view_step (head_position : Z) (acc : list string * t) (index : Z)
  : list string * t :=
  let '(symbol, self) := read (snd acc) index in
  if index =? head_position
  then ((fst acc ++ ["[" +:+ symbol +:+ "]"])%list, self)
  else ((fst acc ++ [symbol])%list, self).

(** [Tape.view] *)
Definition view (self : t) (head_position : Z) (radius : Z) : string * t :=
  let start := Z.min (min_index self) (head_position - radius) in
  let end_ := Z.max (max_index self) (head_position + radius) in
  let '(cells, self) :=
    foldl (view_step head_position) ([], self) (range start (end_ + 1)) in
  (String.concat "" cells, self).

(** The default value of [radius]. *)
Definition default_radius : Z := 20.

End Tape.

(** ** machine.py: snapshots and results *)

Module ID.

(** [@dataclass class InstantaneousDescription] *)
Record InstantaneousDescription := mk {
  step : Z;
  state : string;
  head_position : Z;
  tape_view : string;
  memory : option string
}.

End ID.

Module Result.

(** [@dataclass class MachineResult] *)
Record MachineResult := mk {
  accepted : bool;
  halted : bool;
  reason : string;
  steps : Z;
  ids : list ID.InstantaneousDescription
}.

End Result.

(** The three texts [run] gives as [reason]. *)
Definition reason_final : string := "Estado final alcanzado".
Definition reason_no_transition : string := "No existe transición definida".
Definition reason_step_limit : string := "Se alcanzó el límite máximo de pasos".

(** ** machine.py: [TuringMachine.run] *)

(** The local variables of [run] that the loop and [capture] update. *)
Record Frame := mkFrame {
  tape : Tape.t;
  state : string;
  head_position : Z;
  memory : option string;
  steps : Z;
  ids : list ID.InstantaneousDescription
}.

(** The nested function [capture] of [run]. *)
Definition capture (capture_ids : bool) (fr : Frame) : Frame :=
  if capture_ids then
    let '(tape_view, tape') :=
      Tape.view (tape fr) (head_position fr) Tape.default_radius in
    {| tape := tape';
       state := state fr;
       head_position := head_position fr;
       memory := memory fr;
       steps := steps fr;
       ids := (ids fr ++
               [ {| ID.step := steps fr;
                    ID.state := state fr;
                    ID.head_position := head_position fr;
                    ID.tape_view := tape_view;
                    ID.memory := memory fr |} ])%list |}
  else fr.

(** [state in self.spec.final_states] *)
Definition in_final_states (self : TuringMachine) (state : string) : bool :=
  bool_decide (state ∈ final_states (spec self)).

(** Lines 138-147 of [run]: write, move, change state and memory, count the
    step and take the snapshot. *)
Definition apply_transition (capture_ids : bool) (fr : Frame)
  (transition : Transition) : Frame :=
  let tape := Tape.write (tape fr) (head_position fr) (write_symbol transition) in
  let head_position :=
    if String.eqb (movement transition) "R" then head_position fr + 1
    else if String.eqb (movement transition) "L" then head_position fr - 1
    else head_position fr in
  let state := next_state transition in
  let memory :=
    match next_memory transition with
    | Some m => Some m
    | None => memory fr
    end in
  let steps := steps fr + 1 in
  capture capture_ids
    {| tape := tape; state := state; head_position := head_position;
       memory := memory; steps := steps; ids := ids fr |}.

(** The [MachineResult] of the [if transition is None] branch. *)
Definition no_transition_result (self : TuringMachine) (fr : Frame)
  : Result.MachineResult :=
  let halted := in_final_states self (state fr) in
  let reason := if halted then reason_final else reason_no_transition in
  {| Result.accepted := halted;
     Result.halted := true;
     Result.reason := reason;
     Result.steps := steps fr;
     Result.ids := ids fr |}.

(** The [MachineResult] returned when the new state is final. *)
Definition accepted_result (fr : Frame) : Result.MachineResult :=
  {| Result.accepted := true;
     Result.halted := true;
     Result.reason := reason_final;
     Result.steps := steps fr;
     Result.ids := ids fr |}.

(** The [MachineResult] returned after the loop. *)
Definition step_limit_result (fr : Frame) : Result.MachineResult :=
  {| Result.accepted := false;
     Result.halted := false;
     Result.reason := reason_step_limit;
     Result.steps := steps fr;
     Result.ids := ids fr |}.

(** What one pass of the [while] body does: it either falls through to the
    next test of the loop condition or returns from [run]. *)
Inductive Flow :=
  | Continue (fr : Frame)
  | Return (result : Result.MachineResult).

(** The body of [while steps < max_steps]. *)
Definition loop_body (self : TuringMachine) (capture_ids : bool) (fr : Frame)
  : Flow * TuringMachine :=
  let '(current_symbol, tape) := Tape.read (tape fr) (head_position fr) in
  let fr := {| tape := tape; state := state fr;
               head_position := head_position fr; memory := memory fr;
               steps := steps fr; ids := ids fr |} in
  let '(transition, self) :=
    _next_transition self (state fr) current_symbol (memory fr) in
  match transition with
  | None => (Return (no_transition_result self fr), self)
  | Some transition =>
      let fr := apply_transition capture_ids fr transition in
      if in_final_states self (state fr)
      then (Return (accepted_result fr), self)
      else (Continue fr, self)
  end.

(** The [while] loop and the [return] after it. [fuel] bounds the number
    of passes; [None] means the fuel ran out with the loop still going. *)
Fixpoint while_loop (max_steps : Z) (capture_ids : bool) (fuel : nat)
  (self : TuringMachine) (fr : Frame)
  : option (Result.MachineResult * TuringMachine) :=
  if steps fr <? max_steps then
    match fuel with
    | O => None
    | S fuel =>
        match loop_body self capture_ids fr with
        | (Return result, self) => Some (result, self)
        | (Continue fr, self) => while_loop max_steps capture_ids fuel self fr
        end
    end
  else Some (step_limit_result fr, self).

(** The locals of [run] before the first [capture()]. *)
Definition initial_frame (self : TuringMachine) (input_string : string)
  : Frame :=
  {| tape := Tape.init (Config.blank_symbol (spec self)) input_string;
     state := spec_initial_state (spec self);
     head_position := 0;
     memory := spec_initial_memory (spec self);
     steps := 0;
     ids := [] |}.

(** [run] with an explicit bound on the passes of its loop. *)
Definition run_fuel (fuel : nat) (self : TuringMachine)
  (input_string : string) (max_steps : Z) (capture_ids : bool)
  : option (Result.MachineResult * TuringMachine) :=
  let fr := capture capture_ids (initial_frame self input_string) in
  while_loop max_steps capture_ids fuel self fr.

(** [TuringMachine.run]. The counter [steps] grows by one on every pass, so
    [max_steps] passes are all the loop can make. *)
Definition run (self : TuringMachine) (input_string : string)
  (max_steps : Z) (capture_ids : bool)
  : option (Result.MachineResult * TuringMachine) :=
  run_fuel (Z.to_nat max_steps) self input_string max_steps capture_ids.

(** ** Counting transition applications *)

(** One completed transition application from [fr]: the symbol under the
    head is read, a rule resolves, and it is applied. [None] when no rule
    resolves. *)
Definition transition_step (self : TuringMachine) (capture_ids : bool)
  (fr : Frame) : option Frame :=
  let '(current_symbol, tape) := Tape.read (tape fr) (head_position fr) in
  match fst (_next_transition self (state fr) current_symbol (memory fr)) with
  | None => None
  | Some transition =>
      Some (apply_transition capture_ids
              {| tape := tape; state := state fr;
                 head_position := head_position fr; memory := memory fr;
                 steps := steps fr; ids := ids fr |} transition)
  end.

(** The frame after [n] completed transition applications, if that many
    can be made. *)
Fixpoint after_transitions (self : TuringMachine) (capture_ids : bool)
  (n : nat) (fr : Frame) : option Frame :=
  match n with
  | O => Some fr
  | S n =>
      match after_transitions self capture_ids n fr with
      | Some fr' => transition_step self capture_ids fr'
      | None => None
      end
  end.

(** The snapshot of a frame, as [capture] builds it. *)
Definition snapshot (fr : Frame) : ID.InstantaneousDescription :=
  {| ID.step := steps fr;
     ID.state := state fr;
     ID.head_position := head_position fr;
     ID.tape_view :=
       fst (Tape.view (tape fr) (head_position fr) Tape.default_radius);
     ID.memory := memory fr |}.

(** ** Sample machines *)

Module Samples.

Definition rule (s c : string) (memory : option string)
  (s' w mv : string) (memory' : option string) : Transition :=
  {| initial_state := s; read_symbol := c; next_state := s';
     write_symbol := w; movement := mv;
     initial_memory := memory; next_memory := memory' |}.

Definition machine (tape_symbols finals : list string)
  (ts : list Transition) (memory : option string) : MachineSpecification :=
  {| states := ["q0"; "q1"; "qf"];
     spec_initial_state := "q0";
     final_states := finals;
     input_alphabet := tape_symbols;
     tape_alphabet := (tape_symbols ++ ["_"])%list;
     Config.blank_symbol := "_";
     transitions := ts;
     simulation_strings := [];
     memory_alphabet := None;
     spec_initial_memory := memory |}.

(** One rule [(q0, 1) -> (qf, 1, S)]. *)
Definition unary : MachineSpecification :=
  machine ["1"] ["qf"] [rule "q0" "1" None "qf" "1" "S" None] None.

(** A wildcard rule and a rule for the memory value [seen]. *)
Definition wildcard_rule : Transition :=
  rule "q0" "0" None "q1" "0" "R" None.
Definition seen_rule : Transition :=
  rule "q0" "0" (Some "seen") "qf" "0" "S" None.
Definition with_memory : MachineSpecification :=
  machine ["0"] ["qf"] [wildcard_rule; seen_rule] (Some "seen").

(** A rule declared for the memory value ["*"], then a wildcard rule. *)
Definition star_rule : Transition :=
  rule "q0" "0" (Some "*") "qf" "0" "S" None.
Definition with_star_memory : MachineSpecification :=
  machine ["0"] ["qf"] [star_rule; wildcard_rule] (Some "*").

(** A rule declared for the empty memory value, then a wildcard rule. *)
Definition empty_rule : Transition :=
  rule "q0" "0" (Some "") "qf" "0" "S" None.
Definition with_empty_memory : MachineSpecification :=
  machine ["0"] ["qf"] [empty_rule; wildcard_rule] (Some "").

(** The same key declared twice, with different outputs. *)
Definition first_rule : Transition :=
  rule "q0" "1" None "q1" "1" "R" None.
Definition second_rule : Transition :=
  rule "q0" "1" None "qf" "0" "S" None.
Definition duplicated : MachineSpecification :=
  machine ["0"; "1"] ["qf"] [first_rule; second_rule] None.

(** No final state; the head runs to the right for ever. *)
Definition runner : MachineSpecification :=
  machine ["a"] []
    [rule "q0" "a" None "q0" "a" "R" None;
     rule "q0" "_" None "q0" "a" "R" None] None.

(** The initial state is final and there is no rule. *)
Definition idle : MachineSpecification :=
  machine ["1"] ["q0"] [] None.

End Samples.

(** ** Sequences of writes *)

(** The tape after the writes [ws], made in order: each is a position and
    the symbol written there. *)
Definition write_all (self : Tape.t) (ws : list (Z * string)) : Tape.t :=
  foldl (fun self w => Tape.write self (fst w) (snd w)) self ws.

(** ** How a run ends *)

(** [run] ended on the frame [fr'], reached after [n] completed transition
    applications, with the result [r]: by the step limit, by a missing
    transition, or by entering a final state. *)
Inductive Ending (self : TuringMachine) (capture_ids : bool) (max_steps : Z)
  (n : nat) (fr' : Frame) (r : Result.MachineResult) : Prop :=
  | ending_step_limit :
      max_steps ≤ steps fr' →
      (n ≠ O → in_final_states self (state fr') = false) →
      r = step_limit_result fr' →
      Ending self capture_ids max_steps n fr' r
  | ending_no_transition :
      steps fr' < max_steps →
      (n ≠ O → in_final_states self (state fr') = false) →
      transition_step self capture_ids fr' = None →
      r = no_transition_result self fr' →
      Ending self capture_ids max_steps n fr' r
  | ending_accepted :
      n ≠ O →
      in_final_states self (state fr') = true →
      r = accepted_result fr' →
      Ending self capture_ids max_steps n fr' r.

From Stdlib Require Import Ascii.

(** ** Names without the key separator *)

(** ["|" not in s] *)
Fixpoint bar_free (s : string) : bool :=
  match s with
  | EmptyString => true
  | String ch rest => negb (Ascii.eqb ch "|"%char) && bar_free rest
  end.

Module MoreSamples.

(** A state with the separator in its name. *)
Definition barred_rule : Transition :=
  Samples.rule "q|a" "b" None "qf" "b" "S" None.
Definition barred : MachineSpecification :=
  Samples.machine ["b"] ["qf"] [barred_rule] None.

End MoreSamples.

(** ** The cells of a view *)

(** The text that [view] appends for the cell at [index]. *)
Definition render_cell (self : Tape.t) (head_position index : Z) : string :=
  let symbol := fst (Tape.read self index) in
  if index =? head_position then "[" +:+ symbol +:+ "]" else symbol.

(** ** The bounds of a tape *)

(** 0 lies between [min_index] and [max_index], and so does every position
    that has a cell. *)
Definition tape_bounded (self : Tape.t) : Prop :=
  Tape.min_index self ≤ 0 ≤ Tape.max_index self
  ∧ ∀ p, is_Some (Tape.cells self !! p) →
         Tape.min_index self ≤ p ≤ Tape.max_index self.

(** ** Runs without their snapshots *)

(** A frame and a result with the list of snapshots emptied. *)
Definition without_ids (fr : Frame) : Frame :=
  {| tape := tape fr; state := state fr; head_position := head_position fr;
     memory := memory fr; steps := steps fr; ids := [] |}.

Definition result_without_ids (r : Result.MachineResult)
  : Result.MachineResult :=
  {| Result.accepted := Result.accepted r; Result.halted := Result.halted r;
     Result.reason := Result.reason r; Result.steps := Result.steps r;
     Result.ids := [] |}.

(** ** machine.py: [TuringMachine.simulate_inputs] *)

(** The [for input_string in inputs] loop, with
    [results[input_string] = self.run(...)] in its body. *)
Fixpoint simulate_loop (self : TuringMachine) (max_steps : Z)
  (capture_ids : bool) (inputs : list string)
  (results : gmap string Result.MachineResult)
  : option (gmap string Result.MachineResult * TuringMachine) :=
  match inputs with
  | [] => Some (results, self)
  | input_string :: inputs =>
      match run self input_string max_steps capture_ids with
      | Some (result, self) =>
          simulate_loop self max_steps capture_ids inputs
            (<[input_string := result]> results)
      | None => None
      end
  end.

(** [TuringMachine.simulate_inputs]; [inputs = None] is the default. *)
Definition simulate_inputs (self : TuringMachine)
  (inputs : option (list string)) (max_steps : Z) (capture_ids : bool)
  : option (gmap string Result.MachineResult * TuringMachine) :=
  let inputs :=
    match inputs with
    | Some inputs => inputs
    | None => simulation_strings (spec self)
    end in
  simulate_loop self max_steps capture_ids inputs ∅.

(** ** simple_yaml.py: [_strip_comments] *)

Module SimpleYaml.








End SimpleYaml.

(** * Properties *)

(** ** The transition table *)

Section TransitionTable.

Implicit Types (t : Transition) (ts : list Transition).
Implicit Types (mapping : gmap string Transition) (k s c : string).

Lemma transition_map_loop_snoc mapping ts t :
  transition_map_loop mapping (ts ++ [t])
  = <[key_of t := t]> (transition_map_loop mapping ts).
Proof. unfold transition_map_loop. by rewrite foldl_app. Qed.

Lemma transition_map_loop_app mapping ts1 ts2 :
  transition_map_loop mapping (ts1 ++ ts2)
  = transition_map_loop (transition_map_loop mapping ts1) ts2.
Proof. unfold transition_map_loop. by rewrite foldl_app. Qed.

(** A key that no rule of the list has keeps the entry it had. *)
Lemma transition_map_loop_other mapping ts k :
  (∀ t, t ∈ ts → key_of t ≠ k) →
  transition_map_loop mapping ts !! k = mapping !! k.
Proof.
  revert mapping. induction ts as [|t ts IH]; intros mapping Hk; [done|].
  change (transition_map_loop mapping (t :: ts))
    with (transition_map_loop (<[key_of t := t]> mapping) ts).
  rewrite IH.
  - apply lookup_insert_ne, Hk. left.
  - intros t' Ht'. apply Hk. by right.
Qed.

(** The last rule with a given key is the one the table holds. *)
Lemma transition_map_loop_last mapping ts1 t ts2 :
  (∀ t', t' ∈ ts2 → key_of t' ≠ key_of t) →
  transition_map_loop mapping (ts1 ++ t :: ts2) !! key_of t = Some t.
Proof.
  intros Hlater. rewrite transition_map_loop_app.
  change (transition_map_loop (transition_map_loop mapping ts1) (t :: ts2))
    with (transition_map_loop
            (<[key_of t := t]> (transition_map_loop mapping ts1)) ts2).
  rewrite transition_map_loop_other by done. apply lookup_insert_eq.
Qed.

(** Every entry of the table built from the empty dictionary is a rule of
    the list, filed under its own key. *)
Lemma transition_map_loop_Some ts k t :
  transition_map_loop ∅ ts !! k = Some t → t ∈ ts ∧ key_of t = k.
Proof.
  induction ts as [|t' ts IH] using rev_ind.
  { unfold transition_map_loop. cbn. by rewrite lookup_empty. }
  rewrite transition_map_loop_snoc, lookup_insert.
  case_decide as Hk.
  - intros [= ->]. split; [|done]. apply elem_of_app. right. left.
  - intros [Hin Hkey]%IH. split; [|done]. apply elem_of_app. by left.
Qed.

(** A key that some rule of the list has is bound in the table. *)
Lemma transition_map_loop_is_Some mapping ts k t :
  t ∈ ts → key_of t = k → is_Some (transition_map_loop mapping ts !! k).
Proof.
  induction ts as [|t' ts IH] using rev_ind; [by intros ?%elem_of_nil|].
  intros Hin Hk. rewrite transition_map_loop_snoc, lookup_insert.
  case_decide; [by eexists|].
  apply IH; [|done]. apply elem_of_app in Hin as [Hin|Hin]; [done|].
  apply list_elem_of_singleton in Hin. congruence.
Qed.

(** The two probes of [_next_transition], spelled out. *)
Lemma next_transition_lookup (self : TuringMachine) s c memory :
  fst (_next_transition self s c memory)
  = match tm_transition_map self !! _transition_key s c memory with
    | Some t => Some t
    | None => tm_transition_map self !! _transition_key s c None
    end.
Proof. unfold _next_transition. by destruct (_ !! _). Qed.

Lemma next_transition_self (self : TuringMachine) s c memory :
  snd (_next_transition self s c memory) = self.
Proof. unfold _next_transition. by destruct (_ !! _). Qed.

(** A memory value other than the empty string and ["*"] is its own third
    key component, and that component is not the wildcard's. *)
Lemma memory_or_star_proper (m : string) :
  m ≠ "" → m ≠ "*" → memory_or_star (Some m) = m.
Proof. intros Hne _. by destruct m. Qed.

Lemma transition_key_proper_ne s c (m : string) :
  m ≠ "" → m ≠ "*" → _transition_key s c (Some m) ≠ _transition_key s c None.
Proof.
  intros Hne Hstar Heq. unfold _transition_key in Heq.
  rewrite memory_or_star_proper in Heq by done.
  repeat apply (inj (String.append _)) in Heq. done.
Qed.

End TransitionTable.

(** ** Resolution: specificity, the wildcard key and duplicates *)

Section Resolution.

Implicit Types (t : Transition) (s c : string).

(** C1, as amended. For a memory value [m] other than the empty string and
    ["*"]: when the transition list has a rule for exactly [(s, c, m)] and a
    wildcard rule for [(s, c)], resolving [(s, c, m)] returns a rule of the
    list filed under the exact key of [(s, c, m)], which is not the wildcard
    rule, and which is the declared memory-specific rule itself when no
    other rule shares its key (otherwise the last one declared with that
    key, see [transition_map_loop_last]). A wildcard rule for [(s, c)] is
    returned only when no rule of the list has the exact key of
    [(s, c, m)]. *)
Theorem exact_memory_rule_takes_precedence
  (specification : MachineSpecification) s c (m : string) :
  m ≠ "" → m ≠ "*" →
  let self := TuringMachine_init specification in
  (∀ t_e t_w,
      t_e ∈ transitions specification →
      initial_state t_e = s → read_symbol t_e = c →
      initial_memory t_e = Some m →
      t_w ∈ transitions specification →
      initial_state t_w = s → read_symbol t_w = c →
      initial_memory t_w = None →
      ∃ t, fst (_next_transition self s c (Some m)) = Some t
           ∧ t ∈ transitions specification
           ∧ key_of t = _transition_key s c (Some m)
           ∧ t ≠ t_w
           ∧ ((∀ t', t' ∈ transitions specification →
                     key_of t' = key_of t_e → t' = t_e) → t = t_e))
  ∧ (∀ t_w,
      fst (_next_transition self s c (Some m)) = Some t_w →
      initial_state t_w = s → read_symbol t_w = c →
      initial_memory t_w = None →
      ∀ t', t' ∈ transitions specification →
            key_of t' ≠ _transition_key s c (Some m)).
Proof.
  intros Hne Hstar self.
  pose proof (transition_key_proper_ne s c m Hne Hstar) as Hkeys.
  split.
  - intros t_e t_w Hin_e Hs_e Hc_e Hm_e Hin_w Hs_w Hc_w Hm_w.
    assert (key_of t_e = _transition_key s c (Some m)) as Hk_e
      by (unfold key_of; congruence).
    assert (key_of t_w = _transition_key s c None) as Hk_w
      by (unfold key_of; congruence).
    destruct (transition_map_loop_is_Some ∅ _ _ _ Hin_e Hk_e) as [t Ht].
    destruct (transition_map_loop_Some _ _ _ Ht) as [Hin Hk].
    exists t. rewrite next_transition_lookup. cbn.
    fold (transition_map specification). unfold transition_map. rewrite Ht.
    repeat split; try done.
    + intros ->. congruence.
    + intros Huniq. apply Huniq; [done|congruence].
  - intros t_w Hres Hs_w Hc_w Hm_w t' Hin' Hk'.
    assert (key_of t_w = _transition_key s c None) as Hk_w
      by (unfold key_of; congruence).
    destruct (transition_map_loop_is_Some ∅ _ _ _ Hin' Hk') as [t Ht].
    destruct (transition_map_loop_Some _ _ _ Ht) as [Hin Hk].
    rewrite next_transition_lookup in Hres. cbn in Hres.
    unfold transition_map in Hres. rewrite Ht in Hres.
    congruence.
Qed.

Lemma exact_memory_rule_takes_precedence_witness :
  fst (_next_transition (TuringMachine_init Samples.with_memory)
         "q0" "0" (Some "seen"))
  = Some Samples.seen_rule.
Proof.
  destruct (exact_memory_rule_takes_precedence
              Samples.with_memory "q0" "0" "seen") as [Hexact _];
    [discriminate | discriminate |].
  destruct (Hexact Samples.seen_rule Samples.wildcard_rule)
    as (t & -> & _ & _ & _ & Hsame);
    [ right; left | reflexivity | reflexivity | reflexivity
    | left | reflexivity | reflexivity | reflexivity | ].
  f_equal. apply Hsame. intros t' Hin Hkey.
  apply elem_of_cons in Hin as [->|Hin]; [discriminate Hkey|].
  apply list_elem_of_singleton in Hin. exact Hin.
Defined.

(** C1 as stated fails at the memory values ["*"] and [""]. The list
    declares a rule for exactly [(q0, 0, "*")] and a wildcard rule for
    [(q0, 0)]; a run holding ["*"] gets the wildcard rule. The same for the
    empty memory value. *)
Lemma star_memory_resolves_to_wildcard_rule :
  (Samples.star_rule ∈ transitions Samples.with_star_memory
   ∧ initial_state Samples.star_rule = "q0"
   ∧ read_symbol Samples.star_rule = "0"
   ∧ initial_memory Samples.star_rule = Some "*"
   ∧ Samples.wildcard_rule ∈ transitions Samples.with_star_memory
   ∧ initial_state Samples.wildcard_rule = "q0"
   ∧ read_symbol Samples.wildcard_rule = "0"
   ∧ initial_memory Samples.wildcard_rule = None
   ∧ fst (_next_transition (TuringMachine_init Samples.with_star_memory)
            "q0" "0" (Some "*"))
     = Some Samples.wildcard_rule
   ∧ Samples.wildcard_rule ≠ Samples.star_rule)
  ∧ (Samples.empty_rule ∈ transitions Samples.with_empty_memory
     ∧ initial_memory Samples.empty_rule = Some ""
     ∧ fst (_next_transition (TuringMachine_init Samples.with_empty_memory)
              "q0" "0" (Some ""))
       = Some Samples.wildcard_rule
     ∧ Samples.wildcard_rule ≠ Samples.empty_rule).
Proof.
  split.
  - repeat split; try reflexivity; try discriminate.
    + left.
    + right; left.
  - repeat split; try reflexivity; try discriminate. left.
Qed.

(** C9. The empty string and ["*"] as memory value give the key of the
    wildcard: the first probe of a resolution with either of them is the
    lookup of the wildcard key, the resolution returns exactly what the
    table holds under the wildcard key, and a rule declared with the empty
    string as [initial_memory] is filed under the wildcard key. *)
Theorem empty_and_star_memory_use_wildcard_key (self : TuringMachine) s c :
  _transition_key s c (Some "") = _transition_key s c None
  ∧ _transition_key s c (Some "*") = _transition_key s c None
  ∧ tm_transition_map self !! _transition_key s c (Some "")
    = tm_transition_map self !! _transition_key s c None
  ∧ tm_transition_map self !! _transition_key s c (Some "*")
    = tm_transition_map self !! _transition_key s c None
  ∧ _next_transition self s c (Some "")
    = (tm_transition_map self !! _transition_key s c None, self)
  ∧ _next_transition self s c (Some "*")
    = (tm_transition_map self !! _transition_key s c None, self)
  ∧ (∀ s' w mv memory' (mapping : gmap string Transition),
       let t := {| initial_state := s; read_symbol := c; next_state := s';
                   write_symbol := w; movement := mv;
                   initial_memory := Some ""; next_memory := memory' |} in
       key_of t = _transition_key s c None
       ∧ transition_map_loop mapping [t] !! _transition_key s c None = Some t).
Proof.
  assert (_transition_key s c (Some "") = _transition_key s c None) as He
    by reflexivity.
  assert (_transition_key s c (Some "*") = _transition_key s c None) as Hs
    by reflexivity.
  split; [exact He|]. split; [exact Hs|].
  split; [by rewrite He|]. split; [by rewrite Hs|].
  split; [|split].
  - unfold _next_transition. cbv zeta. rewrite He. by destruct (_ !! _).
  - unfold _next_transition. cbv zeta. rewrite Hs. by destruct (_ !! _).
  - intros s' w mv memory' mapping t. split; [reflexivity|].
    unfold transition_map_loop. cbn. apply lookup_insert_eq.
Qed.

(** C7. When several rules of the transition list have the same key, the
    table holds the one declared last under that key, and resolving the
    triple of that rule returns it. *)
Theorem duplicate_key_last_declaration_wins
  (specification : MachineSpecification) ts1 t ts2 :
  transitions specification = (ts1 ++ t :: ts2)%list →
  (∀ t', t' ∈ ts2 → key_of t' ≠ key_of t) →
  transition_map specification !! key_of t = Some t
  ∧ fst (_next_transition (TuringMachine_init specification)
           (initial_state t) (read_symbol t) (initial_memory t))
    = Some t
  ∧ (∀ t0, t0 ∈ ts1 → key_of t0 = key_of t → t0 ≠ t →
       transition_map specification !! key_of t0 ≠ Some t0).
Proof.
  intros Hts Hlater.
  assert (transition_map specification !! key_of t = Some t) as Hlast.
  { unfold transition_map. rewrite Hts. by apply transition_map_loop_last. }
  repeat split; [done| |].
  - rewrite next_transition_lookup. cbn. fold (key_of t). by rewrite Hlast.
  - intros t0 _ Hk Hne. rewrite Hk, Hlast. congruence.
Qed.

Lemma duplicate_key_last_declaration_wins_witness :
  transition_map Samples.duplicated !! key_of Samples.second_rule
  = Some Samples.second_rule
  ∧ fst (_next_transition (TuringMachine_init Samples.duplicated)
           "q0" "1" None)
    = Some Samples.second_rule
  ∧ transition_map Samples.duplicated !! key_of Samples.first_rule
    ≠ Some Samples.first_rule.
Proof.
  destruct (duplicate_key_last_declaration_wins Samples.duplicated
              [Samples.first_rule] Samples.second_rule [])
    as (Hmap & Hres & Hfirst).
  - reflexivity.
  - intros t' Hin. by apply elem_of_nil in Hin.
  - split; [exact Hmap | split; [exact Hres |]].
    apply Hfirst; [left | reflexivity | discriminate].
Defined.

End Resolution.

(** ** The tape *)

Section TapeProperties.

Implicit Types (self : Tape.t) (p position index : Z) (x blank : string).

Lemma init_loop_blank_symbol input : ∀ index self,
  Tape.blank_symbol (Tape.init_loop index input self) = Tape.blank_symbol self.
Proof. induction input as [|ch rest IH]; intros; [done|]. cbn. by rewrite IH. Qed.

Lemma init_loop_min_index input : ∀ index self,
  Tape.min_index (Tape.init_loop index input self) = Tape.min_index self.
Proof. induction input as [|ch rest IH]; intros; [done|]. cbn. by rewrite IH. Qed.

(** After the loop, [max_index] is the index of the last character. *)
Lemma init_loop_max_index input : ∀ index self,
  Tape.max_index (Tape.init_loop index input self)
  = match input with
    | EmptyString => Tape.max_index self
    | String _ _ => index + Z.of_nat (String.length input) - 1
    end.
Proof.
  induction input as [|ch rest IH]; intros index self; [done|].
  cbn [Tape.init_loop]. rewrite IH. destruct rest as [|ch' rest'].
  - cbn. lia.
  - cbn [String.length]. lia.
Qed.

(** The loop only binds the positions of the input. *)
Lemma init_loop_cells_outside input : ∀ index self p,
  p < index ∨ index + Z.of_nat (String.length input) ≤ p →
  Tape.cells (Tape.init_loop index input self) !! p = Tape.cells self !! p.
Proof.
  induction input as [|ch rest IH]; intros index self p Hp; [done|].
  cbn [Tape.init_loop]. cbn [String.length] in Hp. rewrite IH by lia.
  cbn. apply lookup_insert_ne. lia.
Qed.

Lemma init_cells_outside blank input p :
  p < 0 ∨ Z.of_nat (String.length input) ≤ p →
  default blank (Tape.cells (Tape.init blank input) !! p) = blank.
Proof.
  intros Hp. unfold Tape.init. destruct input as [|ch rest].
  - cbn. destruct (decide (0 = p)) as [<-|Hne].
    + by rewrite lookup_insert_eq.
    + by rewrite lookup_insert_ne, lookup_empty.
  - rewrite init_loop_cells_outside by lia. cbn. by rewrite lookup_empty.
Qed.

Lemma init_blank_symbol blank input :
  Tape.blank_symbol (Tape.init blank input) = blank.
Proof.
  unfold Tape.init. destruct input; [done|]. by rewrite init_loop_blank_symbol.
Qed.

Lemma write_all_snoc self ws p x :
  write_all self (ws ++ [(p, x)]) = Tape.write (write_all self ws) p x.
Proof. unfold write_all. by rewrite foldl_app. Qed.

Lemma write_all_blank_symbol self ws :
  Tape.blank_symbol (write_all self ws) = Tape.blank_symbol self.
Proof.
  induction ws as [|[p x] ws IH] using rev_ind; [done|].
  by rewrite write_all_snoc.
Qed.

(** Writes elsewhere leave a cell as it was. *)
Lemma write_all_cells_other self ws p :
  (∀ w, w ∈ ws → fst w ≠ p) →
  Tape.cells (write_all self ws) !! p = Tape.cells self !! p.
Proof.
  induction ws as [|[q x] ws IH] using rev_ind; intros Hws; [done|].
  rewrite write_all_snoc. cbn. rewrite lookup_insert_ne.
  - apply IH. intros w Hw. apply Hws, elem_of_app. by left.
  - apply (Hws (q, x)), elem_of_app. right. left.
Qed.

(** C6. On the tape built from an input string and changed by any sequence
    of writes, a position outside the input string that none of the writes
    touched reads as the blank symbol; and on every tape, reading a position
    right after writing [x] there returns [x]. *)
Theorem read_blank_unless_written_then_written blank input ws self p x :
  (p < 0 ∨ Z.of_nat (String.length input) ≤ p →
   (∀ w, w ∈ ws → fst w ≠ p) →
   fst (Tape.read (write_all (Tape.init blank input) ws) p) = blank)
  ∧ fst (Tape.read (Tape.write self p x) p) = x.
Proof.
  split.
  - intros Hp Hws. unfold Tape.read. cbn [fst].
    rewrite write_all_blank_symbol, init_blank_symbol.
    rewrite write_all_cells_other by done. by apply init_cells_outside.
  - unfold Tape.read, Tape.write. cbn. by rewrite lookup_insert_eq.
Qed.

Lemma read_blank_unless_written_then_written_witness :
  fst (Tape.read (write_all (Tape.init "_" "ab") [(0, "x"); (-1, "y")]) 5)
  = "_"
  ∧ fst (Tape.read (Tape.write (Tape.init "_" "ab") 5 "z") 5) = "z".
Proof.
  destruct (read_blank_unless_written_then_written
              "_" "ab" [(0, "x"); (-1, "y")] (Tape.init "_" "ab") 5 "z")
    as [Hblank Hwritten].
  split; [|exact Hwritten].
  apply Hblank.
  - right. cbn. lia.
  - intros w Hw. apply elem_of_cons in Hw as [->|Hw]; [cbn; lia|].
    apply list_elem_of_singleton in Hw as ->. cbn. lia.
Defined.

(** C8, as amended. Right after construction [min_index] is 0 and
    [max_index] is the index of the last character of the input string
    (0 when the string is empty or has one character); for the empty
    string, cell 0 holds the blank symbol and is the only cell. *)
Theorem init_touched_indexes blank input :
  Tape.min_index (Tape.init blank input) = 0
  ∧ Tape.max_index (Tape.init blank input)
    = Z.max 0 (Z.of_nat (String.length input) - 1)
  ∧ Tape.init blank ""
    = {| Tape.blank_symbol := blank; Tape.cells := {[ 0 := blank ]};
         Tape.min_index := 0; Tape.max_index := 0 |}.
Proof.
  split; [|split].
  - unfold Tape.init. destruct input; [done|]. by rewrite init_loop_min_index.
  - unfold Tape.init. destruct input as [|ch rest]; [done|].
    rewrite init_loop_max_index. cbn [String.length]. lia.
  - reflexivity.
Qed.

(** C8 as stated fails for an input of two characters: [max_index] is 1
    after construction. *)
Lemma init_max_index_not_zero :
  Tape.max_index (Tape.init "_" "ab") = 1
  ∧ Tape.max_index (Tape.init "_" "ab") ≠ 0.
Proof. split; [reflexivity | discriminate]. Qed.

(** The loop of [view] hands back the tape it was given. *)
Lemma view_loop_tape head_position (l : list Z) : ∀ (acc : list string) self,
  snd (foldl (Tape.view_step head_position) (acc, self) l) = self.
Proof.
  induction l as [|index l IH]; intros acc self; [done|].
  cbn [foldl]. unfold Tape.view_step at 2. cbn [Tape.read fst snd].
  destruct (index =? head_position); apply IH.
Qed.

Lemma view_tape self head_position radius :
  snd (Tape.view self head_position radius) = self.
Proof.
  unfold Tape.view. cbv zeta.
  pose proof (view_loop_tape head_position
    (Tape.range (Z.min (Tape.min_index self) (head_position - radius))
                (Z.max (Tape.max_index self) (head_position + radius) + 1))
    [] self) as H.
  destruct (foldl _ _ _) as [cells self']. exact H.
Qed.

(** C10. [read] and [view] hand back the tape they were given: the cell
    dictionary, [min_index] and [max_index] are what they were, also when
    the position read was never written; so a repeated read returns the
    same symbol, and a repeated view the same text. *)
Theorem read_and_view_leave_tape_unchanged self position head_position radius :
  snd (Tape.read self position) = self
  ∧ snd (Tape.view self head_position radius) = self
  ∧ Tape.cells (snd (Tape.read self position)) = Tape.cells self
  ∧ Tape.min_index (snd (Tape.read self position)) = Tape.min_index self
  ∧ Tape.max_index (snd (Tape.read self position)) = Tape.max_index self
  ∧ Tape.cells (snd (Tape.view self head_position radius)) = Tape.cells self
  ∧ Tape.min_index (snd (Tape.view self head_position radius))
    = Tape.min_index self
  ∧ Tape.max_index (snd (Tape.view self head_position radius))
    = Tape.max_index self
  ∧ fst (Tape.read (snd (Tape.read self position)) position)
    = fst (Tape.read self position)
  ∧ fst (Tape.read (snd (Tape.view self head_position radius)) position)
    = fst (Tape.read self position)
  ∧ fst (Tape.view (snd (Tape.view self head_position radius))
           head_position radius)
    = fst (Tape.view self head_position radius).
Proof.
  rewrite view_tape. by repeat split.
Qed.

End TapeProperties.

(** ** The run loop *)

Section Run.

Variable self : TuringMachine.
Variable capture_ids : bool.

Implicit Types (fr : Frame) (n k fuel : nat) (max_steps : Z).
Implicit Types (r : Result.MachineResult).

(** [capture] changes nothing but the list of snapshots. *)
Lemma capture_frame c fr :
  capture c fr
  = {| tape := tape fr; state := state fr;
       head_position := head_position fr; memory := memory fr;
       steps := steps fr;
       ids := if c then (ids fr ++ [snapshot fr])%list else ids fr |}.
Proof.
  unfold capture, snapshot. destruct c; [|by destruct fr].
  pose proof (view_tape (tape fr) (head_position fr) Tape.default_radius) as Hv.
  destruct (Tape.view _ _ _) as [tape_view tape']. cbn in Hv. by subst.
Qed.

Lemma snapshot_capture c fr : snapshot (capture c fr) = snapshot fr.
Proof. by rewrite capture_frame. Qed.

Lemma apply_transition_steps fr transition :
  steps (apply_transition capture_ids fr transition) = steps fr + 1.
Proof. unfold apply_transition. by rewrite capture_frame. Qed.

(** The snapshot taken by a transition is the snapshot of the frame the
    transition leaves. *)
Lemma apply_transition_ids fr transition :
  ids (apply_transition capture_ids fr transition)
  = if capture_ids
    then (ids fr ++ [snapshot (apply_transition capture_ids fr transition)])%list
    else ids fr.
Proof.
  unfold apply_transition. rewrite snapshot_capture. by rewrite capture_frame.
Qed.

Lemma transition_step_steps fr fr' :
  transition_step self capture_ids fr = Some fr' → steps fr' = steps fr + 1.
Proof.
  unfold transition_step. cbn.
  destruct (fst _) as [transition|]; [|done].
  intros [= <-]. by rewrite apply_transition_steps.
Qed.

Lemma transition_step_ids fr fr' :
  transition_step self capture_ids fr = Some fr' →
  ids fr' = if capture_ids then (ids fr ++ [snapshot fr'])%list else ids fr.
Proof.
  unfold transition_step. cbn.
  destruct (fst _) as [transition|]; [|done].
  intros [= <-]. by rewrite apply_transition_ids.
Qed.

(** No transition resolves for the triple of the frame exactly when no
    transition step can be made from it. *)
Lemma transition_step_None fr :
  transition_step self capture_ids fr = None
  ↔ fst (_next_transition self (state fr)
           (fst (Tape.read (tape fr) (head_position fr))) (memory fr))
    = None.
Proof.
  unfold transition_step. cbn. by destruct (fst _).
Qed.

(** One pass of the loop body, by the transition step it makes. *)
Lemma loop_body_step fr :
  loop_body self capture_ids fr
  = (match transition_step self capture_ids fr with
     | None => Return (no_transition_result self fr)
     | Some fr' =>
         if in_final_states self (state fr')
         then Return (accepted_result fr')
         else Continue fr'
     end, self).
Proof.
  destruct fr as [tp st hd mem n l].
  unfold loop_body, transition_step. cbn.
  pose proof (next_transition_self self st (default (Tape.blank_symbol tp)
                (Tape.cells tp !! hd)) mem) as Hself.
  destruct (_next_transition _ _ _ _) as [[transition|] self']; cbn in *;
    subst self'; [|done].
  by destruct (in_final_states _ _).
Qed.

Lemma while_loop_unfold max_steps fuel fr :
  while_loop max_steps capture_ids (S fuel) self fr
  = if steps fr <? max_steps then
      match transition_step self capture_ids fr with
      | None => Some (no_transition_result self fr, self)
      | Some fr' =>
          if in_final_states self (state fr')
          then Some (accepted_result fr', self)
          else while_loop max_steps capture_ids fuel self fr'
      end
    else Some (step_limit_result fr, self).
Proof.
  cbn [while_loop]. rewrite loop_body_step.
  destruct (steps fr <? max_steps); [|done].
  destruct (transition_step _ _ _) as [fr'|]; [|done].
  by destruct (in_final_states _ _).
Qed.

Lemma while_loop_exit max_steps fuel fr :
  max_steps ≤ steps fr →
  while_loop max_steps capture_ids fuel self fr
  = Some (step_limit_result fr, self).
Proof.
  intros Hle. destruct fuel; cbn [while_loop];
    by rewrite (proj2 (Z.ltb_ge _ _) Hle).
Qed.

(** Transition applications can be counted from the front. *)
Lemma after_transitions_front n fr :
  after_transitions self capture_ids (S n) fr
  = match transition_step self capture_ids fr with
    | Some fr1 => after_transitions self capture_ids n fr1
    | None => None
    end.
Proof.
  induction n as [|n IH].
  - cbn [after_transitions]. by destruct (transition_step self capture_ids fr).
  - change (after_transitions self capture_ids (S (S n)) fr)
      with (match after_transitions self capture_ids (S n) fr with
            | Some fr' => transition_step self capture_ids fr'
            | None => None
            end).
    rewrite IH. by destruct (transition_step self capture_ids fr).
Qed.

Lemma after_transitions_steps n : ∀ fr fr',
  after_transitions self capture_ids n fr = Some fr' →
  steps fr' = steps fr + Z.of_nat n.
Proof.
  induction n as [|n IH]; intros fr fr'.
  - intros [= <-]. lia.
  - cbn [after_transitions].
    destruct (after_transitions _ _ n fr) as [fr_n|] eqn:Hn; [|done].
    intros Hstep%transition_step_steps. rewrite Hstep, (IH _ _ Hn). lia.
Qed.

(** If [n] applications can be made, so can any smaller number. *)
Lemma after_transitions_prefix n k fr fr' :
  after_transitions self capture_ids n fr = Some fr' → (k ≤ n)%nat →
  is_Some (after_transitions self capture_ids k fr).
Proof.
  revert fr'. induction n as [|n IH]; intros fr' Hn Hk.
  - replace k with O by lia. by eexists.
  - destruct (decide (k = S n)) as [->|Hne]; [by eexists|].
    cbn [after_transitions] in Hn.
    destruct (after_transitions _ _ n fr) as [fr_n|] eqn:Hfr; [|done].
    apply (IH fr_n); [done|lia].
Qed.

(** The [n]-th application is a transition step from the frame after
    [n - 1] applications. *)
Lemma after_transitions_last n fr fr' :
  after_transitions self capture_ids (S n) fr = Some fr' →
  ∃ fr_n, after_transitions self capture_ids n fr = Some fr_n
          ∧ transition_step self capture_ids fr_n = Some fr'.
Proof.
  cbn [after_transitions].
  destruct (after_transitions _ _ n fr) as [fr_n|]; [|done]. by exists fr_n.
Qed.

Lemma Ending_S max_steps n fr' r :
  Ending self capture_ids max_steps n fr' r →
  (n = O → in_final_states self (state fr') = false) →
  Ending self capture_ids max_steps (S n) fr' r.
Proof.
  intros [Hle Hnf ->|Hlt Hnf Hnone ->|Hn Hf ->] H0.
  - apply ending_step_limit; [done| |done].
    intros _. destruct n; [by apply H0|by apply Hnf].
  - apply ending_no_transition; [done| |done|done].
    intros _. destruct n; [by apply H0|by apply Hnf].
  - by apply ending_accepted.
Qed.

(** With fuel for the steps that are left, the loop returns, leaves the
    machine as it was, and ends in one of the three ways on the frame that
    some number [n] of transition applications reaches; every frame on the
    way there is not final. *)
Lemma while_loop_ending max_steps : ∀ fuel fr,
  max_steps - steps fr ≤ Z.of_nat fuel →
  ∃ n fr' r,
    while_loop max_steps capture_ids fuel self fr = Some (r, self)
    ∧ after_transitions self capture_ids n fr = Some fr'
    ∧ Ending self capture_ids max_steps n fr' r
    ∧ steps fr' ≤ Z.max (steps fr) max_steps
    ∧ (∀ k fr_k, (1 ≤ k < n)%nat →
         after_transitions self capture_ids k fr = Some fr_k →
         in_final_states self (state fr_k) = false).
Proof.
  assert (∀ fuel fr, max_steps ≤ steps fr →
    ∃ n fr' r,
      while_loop max_steps capture_ids fuel self fr = Some (r, self)
      ∧ after_transitions self capture_ids n fr = Some fr'
      ∧ Ending self capture_ids max_steps n fr' r
      ∧ steps fr' ≤ Z.max (steps fr) max_steps
      ∧ (∀ k fr_k, (1 ≤ k < n)%nat →
           after_transitions self capture_ids k fr = Some fr_k →
           in_final_states self (state fr_k) = false)) as Hexit.
  { intros fuel fr Hle. exists O, fr, (step_limit_result fr).
    rewrite while_loop_exit by done.
    repeat split; [by apply ending_step_limit|lia|intros; lia]. }
  induction fuel as [|fuel IH]; intros fr Hfuel; [apply Hexit; lia|].
  destruct (decide (max_steps ≤ steps fr)) as [Hle|Hlt]; [by apply Hexit|].
  rewrite while_loop_unfold, (proj2 (Z.ltb_lt _ _)) by lia.
  destruct (transition_step self capture_ids fr) as [fr1|] eqn:Hstep.
  - pose proof (transition_step_steps _ _ Hstep) as Hsteps.
    destruct (in_final_states self (state fr1)) eqn:Hfinal.
    + exists 1%nat, fr1, (accepted_result fr1).
      cbn [after_transitions]. rewrite Hstep.
      repeat split; [by apply ending_accepted|lia|intros; lia].
    + destruct (IH fr1) as (n & fr' & r & Hloop & Hafter & Hend & Hbound & Hmid);
        [lia|].
      exists (S n), fr', r. rewrite after_transitions_front, Hstep.
      repeat split; [done|done| |lia|].
      * apply Ending_S; [done|]. intros ->. cbn in Hafter. congruence.
      * intros [|k] fr_k Hk; [lia|].
        rewrite after_transitions_front, Hstep.
        destruct k as [|k]; [cbn; congruence|].
        apply Hmid. lia.
  - exists O, fr, (no_transition_result self fr).
    repeat split; [by apply ending_no_transition; [lia|..]|lia|intros; lia].
Qed.

(** More fuel does not change what the loop returns. *)
Lemma while_loop_more_fuel max_steps : ∀ fuel fuel' fr x,
  while_loop max_steps capture_ids fuel self fr = Some x →
  (fuel ≤ fuel')%nat →
  while_loop max_steps capture_ids fuel' self fr = Some x.
Proof.
  induction fuel as [|fuel IH]; intros fuel' fr x Hrun Hle.
  - cbn [while_loop] in Hrun.
    destruct (steps fr <? max_steps) eqn:Hlt; [done|].
    rewrite while_loop_exit; [done|]. by apply Z.ltb_ge.
  - destruct fuel' as [|fuel']; [lia|].
    rewrite while_loop_unfold in Hrun. rewrite while_loop_unfold.
    destruct (steps fr <? max_steps); [|done].
    destruct (transition_step self capture_ids fr) as [fr1|]; [|done].
    destruct (in_final_states self (state fr1)); [done|].
    apply IH; [done|lia].
Qed.

(** A run that finds no transition after [n] applications. *)
Lemma while_loop_no_transition max_steps : ∀ n fuel fr fr_n,
  after_transitions self capture_ids n fr = Some fr_n →
  steps fr + Z.of_nat n < max_steps →
  (n < fuel)%nat →
  (∀ k fr_k, (1 ≤ k ≤ n)%nat →
     after_transitions self capture_ids k fr = Some fr_k →
     in_final_states self (state fr_k) = false) →
  transition_step self capture_ids fr_n = None →
  while_loop max_steps capture_ids fuel self fr
  = Some (no_transition_result self fr_n, self).
Proof.
  induction n as [|n IH]; intros fuel fr fr_n Hafter Hlt Hfuel Hmid Hnone;
    (destruct fuel as [|fuel]; [lia|]);
    rewrite while_loop_unfold, (proj2 (Z.ltb_lt _ _)) by lia.
  - injection Hafter as <-. by rewrite Hnone.
  - rewrite after_transitions_front in Hafter.
    destruct (transition_step self capture_ids fr) as [fr1|] eqn:Hstep; [|done].
    rewrite (Hmid 1%nat fr1);
      [|lia|by cbn [after_transitions]; rewrite Hstep].
    apply (IH fuel fr1 fr_n); [done| |lia| |done].
    + rewrite (transition_step_steps _ _ Hstep). lia.
    + intros k fr_k Hk Hfr_k. apply (Hmid (S k)); [lia|].
      by rewrite after_transitions_front, Hstep.
Qed.

(** A run that makes all the steps the limit allows. *)
Lemma while_loop_step_limit max_steps : ∀ n fuel fr,
  steps fr + Z.of_nat n = max_steps →
  (n ≤ fuel)%nat →
  (∀ k, (1 ≤ k ≤ n)%nat →
     ∃ fr_k, after_transitions self capture_ids k fr = Some fr_k
             ∧ in_final_states self (state fr_k) = false) →
  ∃ fr_n, after_transitions self capture_ids n fr = Some fr_n
          ∧ while_loop max_steps capture_ids fuel self fr
            = Some (step_limit_result fr_n, self).
Proof.
  induction n as [|n IH]; intros fuel fr Hsteps Hfuel Hmid.
  - exists fr. split; [done|]. apply while_loop_exit. lia.
  - destruct fuel as [|fuel]; [lia|].
    rewrite while_loop_unfold, (proj2 (Z.ltb_lt _ _)) by lia.
    destruct (Hmid 1%nat) as (fr1 & Hfr1 & Hfinal1); [lia|].
    cbn [after_transitions] in Hfr1. rewrite Hfr1, Hfinal1.
    destruct (IH fuel fr1) as (fr_n & Hafter & Hloop).
    + rewrite (transition_step_steps _ _ Hfr1). lia.
    + lia.
    + intros k Hk. destruct (Hmid (S k)) as (fr_k & Hfr_k & Hfinal); [lia|].
      exists fr_k. split; [|done].
      by rewrite after_transitions_front, Hfr1 in Hfr_k.
    + exists fr_n. split; [|done]. by rewrite after_transitions_front, Hfr1.
Qed.

(** With snapshots on, the list of snapshots grows by the snapshot of each
    frame reached: it keeps what it had, and the [k]-th application adds the
    snapshot of the frame it leaves. *)
Lemma after_transitions_ids : capture_ids = true → ∀ n fr fr_n,
  after_transitions self capture_ids n fr = Some fr_n →
  length (ids fr_n) = (length (ids fr) + n)%nat
  ∧ (∀ i, (i < length (ids fr))%nat → ids fr_n !! i = ids fr !! i)
  ∧ (∀ k fr_k, (1 ≤ k ≤ n)%nat →
       after_transitions self capture_ids k fr = Some fr_k →
       ids fr_n !! (length (ids fr) + k - 1)%nat = Some (snapshot fr_k)).
Proof.
  intros Hcap. induction n as [|n IH]; intros fr fr_n Hafter.
  - injection Hafter as <-. split; [lia|]. split; [done|]. intros; lia.
  - destruct (after_transitions_last _ _ _ Hafter) as (fr' & Hfr' & Hstep).
    destruct (IH _ _ Hfr') as (Hlen & Hold & Hnew).
    pose proof (transition_step_ids _ _ Hstep) as Hids.
    rewrite Hcap in Hids. rewrite Hids.
    split; [|split].
    + rewrite length_app. cbn. lia.
    + intros i Hi. rewrite lookup_app_l by lia. by apply Hold.
    + intros k fr_k Hk Hfr_k. destruct (decide (k = S n)) as [->|Hne].
      * rewrite Hafter in Hfr_k. injection Hfr_k as <-.
        apply list_lookup_middle. lia.
      * rewrite lookup_app_l by lia. apply Hnew; [lia|done].
Qed.

End Run.

(** ** Results of [run] *)

Section RunResults.

Variable self : TuringMachine.
Variable input_string : string.
Variable max_steps : Z.
Variable capture_ids : bool.

(** The loop starts on the frame left by the first [capture()]. *)
Local Abbreviation fr0 := (capture capture_ids (initial_frame self input_string)).

Lemma initial_steps : steps fr0 = 0.
Proof. by rewrite capture_frame. Qed.

Lemma initial_ids :
  ids fr0 = if capture_ids then [snapshot fr0] else [].
Proof. rewrite snapshot_capture. by rewrite capture_frame. Qed.

(** [run] returns, leaves the machine as it was, and ends in one of the
    three ways after some number [n] of transition applications, which is
    what [steps] reports. *)
Lemma run_ending :
  ∃ n fr r,
    run self input_string max_steps capture_ids = Some (r, self)
    ∧ after_transitions self capture_ids n fr0 = Some fr
    ∧ Ending self capture_ids max_steps n fr r
    ∧ Result.steps r = Z.of_nat n
    ∧ Result.ids r = ids fr
    ∧ Z.of_nat n ≤ Z.max 0 max_steps.
Proof.
  destruct (while_loop_ending self capture_ids max_steps
              (Z.to_nat max_steps) fr0)
    as (n & fr & r & Hloop & Hafter & Hend & Hbound & _).
  { rewrite initial_steps. lia. }
  exists n, fr, r.
  pose proof (after_transitions_steps _ _ _ _ _ Hafter) as Hsteps.
  rewrite initial_steps in Hsteps, Hbound.
  split; [exact Hloop|]. split; [exact Hafter|]. split; [exact Hend|].
  split; [|split; [|lia]].
  - destruct Hend as [_ _ ->|_ _ _ ->|_ _ ->]; cbn; lia.
  - by destruct Hend as [_ _ ->|_ _ _ ->|_ _ ->].
Qed.

(** Whatever fuel gives a result gives the result of [run]. *)
Lemma run_fuel_agrees fuel x :
  run_fuel fuel self input_string max_steps capture_ids = Some x →
  run self input_string max_steps capture_ids = Some x.
Proof.
  intros Hfuel. destruct run_ending as (n & fr & r & Hrun & _).
  unfold run, run_fuel in *.
  destruct (Nat.le_ge_cases fuel (Z.to_nat max_steps)) as [Hle|Hge].
  - by apply (while_loop_more_fuel _ _ _ fuel).
  - pose proof (while_loop_more_fuel _ _ _ _ fuel _ _ Hrun Hge) as Hmore.
    congruence.
Qed.

End RunResults.

(** C2, as amended. When [n] transition applications lead from the start
    of the run to a frame, none of the frames on the way being final, with
    [n] below the step limit, and no transition resolves for the state, the
    symbol under the head and the memory of that frame, then [run] returns a
    result (it is not an error and the fuel does not run out) with
    [halted = true], with [accepted = true] exactly if the state of the
    frame is in [final_states], and with the reason text
    "Estado final alcanzado" when accepted and
    "No existe transición definida" otherwise; it reports [n] steps and the
    snapshots taken so far. *)
Theorem no_transition_halt_result
  (self : TuringMachine) (input_string : string) (max_steps : Z)
  (capture_ids : bool) (n : nat) (fr : Frame) :
  let fr0 := capture capture_ids (initial_frame self input_string) in
  after_transitions self capture_ids n fr0 = Some fr →
  (∀ k fr_k, (1 ≤ k ≤ n)%nat →
     after_transitions self capture_ids k fr0 = Some fr_k →
     in_final_states self (state fr_k) = false) →
  Z.of_nat n < max_steps →
  fst (_next_transition self (state fr)
         (fst (Tape.read (tape fr) (head_position fr))) (memory fr)) = None →
  ∃ r, run self input_string max_steps capture_ids = Some (r, self)
       ∧ Result.halted r = true
       ∧ (Result.accepted r = true ↔ state fr ∈ final_states (spec self))
       ∧ Result.reason r
         = (if Result.accepted r then "Estado final alcanzado"
            else "No existe transición definida")
       ∧ Result.steps r = Z.of_nat n
       ∧ Result.ids r = ids fr.
Proof.
  intros fr0 Hafter Hmid Hlt Hnone.
  apply (transition_step_None self capture_ids) in Hnone.
  exists (no_transition_result self fr). split.
  - unfold run, run_fuel. fold fr0.
    apply (while_loop_no_transition self capture_ids max_steps n);
      [done| |lia|done|done].
    unfold fr0. rewrite initial_steps. lia.
  - pose proof (after_transitions_steps _ _ _ _ _ Hafter) as Hsteps.
    unfold fr0 in Hsteps. rewrite initial_steps in Hsteps.
    unfold no_transition_result. cbn.
    split; [done|]. split; [apply bool_decide_eq_true|].
    split; [|split; [lia|done]].
    unfold in_final_states. by destruct (bool_decide _).
Qed.

Lemma no_transition_halt_result_witness :
  ∃ r, run (TuringMachine_init Samples.unary) "2" 10 true
       = Some (r, TuringMachine_init Samples.unary)
       ∧ Result.halted r = true
       ∧ (Result.accepted r = true
          ↔ "q0" ∈ final_states (spec (TuringMachine_init Samples.unary)))
       ∧ Result.reason r
         = (if Result.accepted r then "Estado final alcanzado"
            else "No existe transición definida")
       ∧ Result.steps r = 0
       ∧ length (Result.ids r) = 1%nat.
Proof.
  destruct (no_transition_halt_result (TuringMachine_init Samples.unary)
              "2" 10 true 0
              (capture true (initial_frame (TuringMachine_init Samples.unary) "2")))
    as (r & Hrun & Hhalted & Haccepted & Hreason & Hsteps & Hids).
  - reflexivity.
  - intros k fr_k Hk. lia.
  - lia.
  - reflexivity.
  - exists r. rewrite Hids.
    split; [exact Hrun|]. split; [exact Hhalted|]. split; [exact Haccepted|].
    split; [exact Hreason|]. split; [exact Hsteps|]. reflexivity.
Defined.

(** C2 as stated fails on the reason texts. A run that stops for want of a
    transition in a state that is not final gives the text
    "No existe transición definida", and one that stops for want of a
    transition in a final state gives "Estado final alcanzado"; neither is
    the text of the claim. *)
Lemma no_transition_reason_texts :
  (fst (_next_transition (TuringMachine_init Samples.unary) "q0" "2" None)
   = None
   ∧ ∃ r, run (TuringMachine_init Samples.unary) "2" 10000 true
          = Some (r, TuringMachine_init Samples.unary)
          ∧ Result.halted r = true
          ∧ Result.accepted r = false
          ∧ Result.reason r = "No existe transición definida"
          ∧ Result.reason r ≠ "no transition defined")
  ∧ (fst (_next_transition (TuringMachine_init Samples.idle) "q0" "1" None)
     = None
     ∧ ∃ r, run (TuringMachine_init Samples.idle) "1" 10000 true
            = Some (r, TuringMachine_init Samples.idle)
            ∧ Result.halted r = true
            ∧ Result.accepted r = true
            ∧ Result.reason r = "Estado final alcanzado"
            ∧ Result.reason r ≠ "final state reached").
Proof.
  split; (split; [reflexivity|]); eexists;
    (split; [vm_compute; reflexivity|]); cbn;
    (split; [reflexivity|]); (split; [reflexivity|]);
    (split; [reflexivity|discriminate]).
Qed.

(** C3. For a positive [max_steps]: if [max_steps] transition applications
    can be made from the start of the run and none of the frames they reach
    is final, [run] returns [accepted = false], [halted = false] and
    [steps = max_steps], which no result of the missing-transition branch
    equals. And in every case the result of [run] is built on the frame
    that some number [n] of completed transition applications reaches, and
    [steps] is that number. *)
Theorem step_limit_result_and_step_count
  (self : TuringMachine) (input_string : string) (max_steps : Z)
  (capture_ids : bool) :
  0 < max_steps →
  let fr0 := capture capture_ids (initial_frame self input_string) in
  ((∀ k, (1 ≤ k ≤ Z.to_nat max_steps)%nat →
      ∃ fr_k, after_transitions self capture_ids k fr0 = Some fr_k
              ∧ in_final_states self (state fr_k) = false) →
   ∃ r, run self input_string max_steps capture_ids = Some (r, self)
        ∧ Result.accepted r = false
        ∧ Result.halted r = false
        ∧ Result.steps r = max_steps
        ∧ (∀ fr, r ≠ no_transition_result self fr))
  ∧ (∃ r n fr,
       run self input_string max_steps capture_ids = Some (r, self)
       ∧ after_transitions self capture_ids n fr0 = Some fr
       ∧ Ending self capture_ids max_steps n fr r
       ∧ Result.steps r = Z.of_nat n).
Proof.
  intros Hpos fr0. split.
  - intros Hmid.
    destruct (while_loop_step_limit self capture_ids max_steps
                (Z.to_nat max_steps) (Z.to_nat max_steps) fr0)
      as (fr_n & Hafter & Hloop); [|done|done|].
    { unfold fr0. rewrite initial_steps. lia. }
    exists (step_limit_result fr_n).
    pose proof (after_transitions_steps _ _ _ _ _ Hafter) as Hsteps.
    unfold fr0 in Hsteps. rewrite initial_steps in Hsteps.
    split; [exact Hloop|]. cbn.
    split; [done|]. split; [done|]. split; [lia|].
    intros fr Heq. apply (f_equal Result.halted) in Heq. discriminate Heq.
  - destruct (run_ending self input_string max_steps capture_ids)
      as (n & fr & r & Hrun & Hafter & Hend & Hsteps & _).
    by exists r, n, fr.
Qed.

Lemma step_limit_result_and_step_count_witness :
  ∃ r, run (TuringMachine_init Samples.runner) "a" 5 false
       = Some (r, TuringMachine_init Samples.runner)
       ∧ Result.accepted r = false
       ∧ Result.halted r = false
       ∧ Result.steps r = 5
       ∧ (∀ fr, r ≠ no_transition_result (TuringMachine_init Samples.runner) fr).
Proof.
  destruct (step_limit_result_and_step_count
              (TuringMachine_init Samples.runner) "a" 5 false)
    as [Hlimit _]; [lia|].
  apply Hlimit. intros k Hk.
  destruct k as [|[|[|[|[|[|k]]]]]];
    [lia| | | | | |cbn in Hk; lia];
    eexists; (split; [vm_compute; reflexivity|reflexivity]).
Defined.

(** C4. With snapshots on and a step limit that is not negative, the list
    of snapshots of the result has [steps + 1] entries, which is
    [max_steps + 1] when the run stopped at the step limit
    ([halted = false]); entry [k] is the snapshot of the frame after [k]
    completed transition applications and carries the step number [k], so
    entry 0 is taken before any transition. *)
Theorem trace_length_and_snapshots
  (self : TuringMachine) (input_string : string) (max_steps : Z) :
  0 ≤ max_steps →
  let fr0 := capture true (initial_frame self input_string) in
  ∃ r, run self input_string max_steps true = Some (r, self)
       ∧ Z.of_nat (length (Result.ids r)) = Result.steps r + 1
       ∧ (Result.halted r = false →
          Z.of_nat (length (Result.ids r)) = max_steps + 1)
       ∧ Result.ids r !! O = Some (snapshot (initial_frame self input_string))
       ∧ (∀ k, (k ≤ Z.to_nat (Result.steps r))%nat →
            ∃ fr_k, after_transitions self true k fr0 = Some fr_k
                    ∧ Result.ids r !! k = Some (snapshot fr_k)
                    ∧ ID.step (snapshot fr_k) = Z.of_nat k).
Proof.
  intros Hms fr0.
  destruct (run_ending self input_string max_steps true)
    as (n & fr & r & Hrun & Hafter & Hend & Hsteps & Hids & Hbound).
  fold fr0 in Hafter.
  destruct (after_transitions_ids self true eq_refl _ _ _ Hafter)
    as (Hlen & Hold & Hnew).
  pose proof (initial_ids self input_string true) as Hids0.
  cbv zeta in Hids0. fold fr0 in Hids0.
  rewrite Hids0 in Hlen, Hold, Hnew. cbn [length] in Hlen, Hold, Hnew.
  exists r. rewrite Hids, Hsteps.
  split; [exact Hrun|]. split; [lia|]. split; [|split].
  - intros Hhalted. rewrite Hlen.
    destruct Hend as [Hle _ ->|_ _ _ ->|_ _ ->]; [|done|done].
    pose proof (after_transitions_steps _ _ _ _ _ Hafter) as Hst.
    unfold fr0 in Hst. rewrite initial_steps in Hst. lia.
  - rewrite Hold by lia.
    change (Some (snapshot fr0)
            = Some (snapshot (initial_frame self input_string))).
    f_equal. apply snapshot_capture.
  - intros k Hk. rewrite Nat2Z.id in Hk.
    destruct (after_transitions_prefix self true n k fr0 fr Hafter Hk)
      as [fr_k Hfr_k].
    exists fr_k. split; [exact Hfr_k|]. split.
    + destruct k as [|k].
      * injection Hfr_k as <-. by rewrite Hold by lia.
      * rewrite <- (Hnew (S k) fr_k) by (done || lia). reflexivity.
    + pose proof (after_transitions_steps _ _ _ _ _ Hfr_k) as Hst.
      unfold fr0 in Hst. rewrite initial_steps in Hst. cbn. lia.
Qed.

Lemma trace_length_and_snapshots_witness :
  ∃ r, run (TuringMachine_init Samples.runner) "a" 5 true
       = Some (r, TuringMachine_init Samples.runner)
       ∧ Z.of_nat (length (Result.ids r)) = Result.steps r + 1
       ∧ (Result.halted r = false → Z.of_nat (length (Result.ids r)) = 5 + 1).
Proof.
  destruct (trace_length_and_snapshots
              (TuringMachine_init Samples.runner) "a" 5)
    as (r & Hrun & Hlen & Hlimit & _); [lia|].
  exists r. split; [exact Hrun|]. split; [exact Hlen|exact Hlimit].
Defined.

(** C5. [run] returns a result and hands back the machine as it was, so a
    second invocation with the same input string, step limit and snapshot
    flag returns the same result: the same [accepted], [halted], [reason]
    and [steps], and the same snapshots entry by entry. The result does not
    depend on the bound used for the passes of the loop. *)
Theorem run_twice_same_result
  (self : TuringMachine) (input_string : string) (max_steps : Z)
  (capture_ids : bool) :
  ∃ r, run self input_string max_steps capture_ids = Some (r, self)
       ∧ (∀ r1 self1 r2 self2,
            run self input_string max_steps capture_ids = Some (r1, self1) →
            run self1 input_string max_steps capture_ids = Some (r2, self2) →
            self1 = self ∧ self2 = self
            ∧ Result.accepted r1 = Result.accepted r2
            ∧ Result.halted r1 = Result.halted r2
            ∧ Result.reason r1 = Result.reason r2
            ∧ Result.steps r1 = Result.steps r2
            ∧ length (Result.ids r1) = length (Result.ids r2)
            ∧ (∀ i, Result.ids r1 !! i = Result.ids r2 !! i)
            ∧ r1 = r2)
       ∧ (∀ fuel r' self',
            run_fuel fuel self input_string max_steps capture_ids
            = Some (r', self') →
            r' = r ∧ self' = self).
Proof.
  destruct (run_ending self input_string max_steps capture_ids)
    as (n & fr & r & Hrun & _).
  exists r. split; [exact Hrun|]. split.
  - intros r1 self1 r2 self2 Hfirst Hsecond.
    rewrite Hrun in Hfirst. injection Hfirst as <- <-.
    rewrite Hrun in Hsecond. injection Hsecond as <- <-.
    by repeat split.
  - intros fuel r' self' Hfuel. apply run_fuel_agrees in Hfuel.
    rewrite Hrun in Hfuel. by injection Hfuel as <- <-.
Qed.

(** * Further properties *)

(** ** Keys and the table *)

Section Keys.

Implicit Types (t : Transition) (s c a b : string).

Lemma append_nil (x : string) : "" +:+ x = x.
Proof. reflexivity. Qed.

Lemma append_cons ch (x y : string) : String ch x +:+ y = String ch (x +:+ y).
Proof. reflexivity. Qed.

Lemma append_assoc (x y z : string) : (x +:+ y) +:+ z = x +:+ (y +:+ z).
Proof.
  induction x as [|ch x IH]; [by rewrite !append_nil|].
  by rewrite !append_cons, IH.
Qed.

(** Up to the first ["|"], the two sides of an equation between joined
    texts agree when neither left part has a ["|"]. *)
Lemma append_bar_inj a : ∀ a' b b',
  bar_free a = true → bar_free a' = true →
  a +:+ "|" +:+ b = a' +:+ "|" +:+ b' → a = a' ∧ b = b'.
Proof.
  induction a as [|ch a IH]; intros [|ch' a'] b b' Ha Ha' Heq;
    rewrite ?append_nil, ?append_cons, ?append_nil in Heq;
    cbn [bar_free] in Ha, Ha'.
  - by injection Heq as ->.
  - injection Heq as <- _. done.
  - injection Heq as -> _. done.
  - injection Heq as -> Heq.
    apply andb_prop in Ha as [_ Ha]. apply andb_prop in Ha' as [_ Ha'].
    destruct (IH a' b b' Ha Ha' Heq) as [-> ->]. done.
Qed.

(** X1. On states and symbols without ["|"], [_transition_key] loses
    nothing but the difference between the memory values that count as the
    wildcard: equal keys mean equal states, equal symbols and equal
    [memory or '*']. *)
Theorem transition_key_injective s c memory s' c' memory' :
  bar_free s = true → bar_free c = true →
  bar_free s' = true → bar_free c' = true →
  _transition_key s c memory = _transition_key s' c' memory' →
  s = s' ∧ c = c' ∧ memory_or_star memory = memory_or_star memory'.
Proof.
  intros Hs Hc Hs' Hc' Heq. unfold _transition_key in Heq.
  apply append_bar_inj in Heq as [-> Heq]; [|done|done].
  apply append_bar_inj in Heq as [-> Heq]; [|done|done].
  done.
Qed.

Lemma transition_key_injective_witness :
  "q0" = "q0" ∧ "1" = "1"
  ∧ memory_or_star (Some "") = memory_or_star None.
Proof.
  apply (transition_key_injective "q0" "1" (Some "") "q0" "1" None);
    reflexivity.
Defined.

(** X2. A ["|"] inside a state or a symbol makes keys collide: the rule
    declared for state [a|b] and symbol [c] is what the table returns for
    state [a] and symbol [b|c], as soon as it is the last rule with its
    key. *)
Theorem separator_in_names_collides
  (specification : MachineSpecification) ts1 t ts2 a b c :
  transitions specification = (ts1 ++ t :: ts2)%list →
  (∀ t', t' ∈ ts2 → key_of t' ≠ key_of t) →
  initial_state t = a +:+ "|" +:+ b →
  read_symbol t = c →
  fst (_next_transition (TuringMachine_init specification)
         a (b +:+ "|" +:+ c) (initial_memory t)) = Some t
  ∧ initial_state t ≠ a.
Proof.
  intros Hts Hlater Hs Hc. split.
  - rewrite next_transition_lookup. cbn.
    assert (_transition_key a (b +:+ "|" +:+ c) (initial_memory t) = key_of t)
      as ->.
    { unfold key_of, _transition_key. rewrite Hs, Hc.
      by rewrite !append_assoc. }
    unfold transition_map. rewrite Hts.
    by rewrite transition_map_loop_last.
  - rewrite Hs. clear. induction a as [|ch a IH].
    + rewrite append_nil, append_cons, append_nil. done.
    + rewrite append_cons. intros [= Heq]. by apply IH.
Qed.

Lemma separator_in_names_collides_witness :
  fst (_next_transition (TuringMachine_init MoreSamples.barred)
         "q" "a|b" None) = Some MoreSamples.barred_rule
  ∧ initial_state MoreSamples.barred_rule ≠ "q".
Proof.
  apply (separator_in_names_collides MoreSamples.barred
           [] MoreSamples.barred_rule [] "q" "a" "b").
  - reflexivity.
  - intros t' Hin. by apply elem_of_nil in Hin.
  - reflexivity.
  - reflexivity.
Defined.

(** X3. Resolution finds nothing exactly when no rule of the list has the
    key of the triple or the wildcard key of the state and symbol. *)
Theorem next_transition_None_iff
  (specification : MachineSpecification) s c memory :
  fst (_next_transition (TuringMachine_init specification) s c memory) = None
  ↔ ∀ t, t ∈ transitions specification →
         key_of t ≠ _transition_key s c memory
         ∧ key_of t ≠ _transition_key s c None.
Proof.
  rewrite next_transition_lookup. cbn. unfold transition_map. split.
  - intros Hnone t Hin.
    destruct (transition_map_loop ∅ (transitions specification)
                !! _transition_key s c memory) as [t1|] eqn:Hexact; [done|].
    split; intros Hk.
    + destruct (transition_map_loop_is_Some ∅ _ _ _ Hin Hk) as [t2 Ht2].
      congruence.
    + destruct (transition_map_loop_is_Some ∅ _ _ _ Hin Hk) as [t2 Ht2].
      congruence.
  - intros Hnokey.
    rewrite !transition_map_loop_other, lookup_empty; [done|..];
      intros t Hin; by apply Hnokey.
Qed.

(** X4. When no state or symbol has a ["|"], the rule that resolution
    returns is a rule of the list declared for this very state and symbol,
    and for this memory value or as a wildcard. *)
Theorem next_transition_sound
  (specification : MachineSpecification) s c memory t :
  bar_free s = true → bar_free c = true →
  (∀ t', t' ∈ transitions specification →
         bar_free (initial_state t') = true
         ∧ bar_free (read_symbol t') = true) →
  fst (_next_transition (TuringMachine_init specification) s c memory)
  = Some t →
  t ∈ transitions specification
  ∧ initial_state t = s
  ∧ read_symbol t = c
  ∧ (memory_or_star (initial_memory t) = memory_or_star memory
     ∨ memory_or_star (initial_memory t) = "*").
Proof.
  intros Hs Hc Hnames. rewrite next_transition_lookup. cbn.
  unfold transition_map.
  assert (∀ memory', transition_map_loop ∅ (transitions specification)
                       !! _transition_key s c memory' = Some t →
    t ∈ transitions specification ∧ initial_state t = s ∧ read_symbol t = c
    ∧ memory_or_star (initial_memory t) = memory_or_star memory') as Hfound.
  { intros memory' [Hin Hk]%transition_map_loop_Some.
    destruct (Hnames t Hin) as [Hst Hct].
    unfold key_of, _transition_key in Hk.
    apply append_bar_inj in Hk as [? Hk]; [|done|done].
    apply append_bar_inj in Hk as [? Hk]; [|done|done].
    done. }
  destruct (transition_map_loop ∅ _ !! _transition_key s c memory)
    as [t1|] eqn:Hexact.
  - intros [= ->]. destruct (Hfound _ Hexact) as (? & ? & ? & ?). auto.
  - intros Hwild. destruct (Hfound _ Hwild) as (? & ? & ? & ?). auto.
Qed.

Lemma next_transition_sound_witness :
  Samples.seen_rule ∈ transitions Samples.with_memory
  ∧ initial_state Samples.seen_rule = "q0"
  ∧ read_symbol Samples.seen_rule = "0"
  ∧ (memory_or_star (initial_memory Samples.seen_rule)
     = memory_or_star (Some "seen")
     ∨ memory_or_star (initial_memory Samples.seen_rule) = "*").
Proof.
  apply (next_transition_sound Samples.with_memory "q0" "0" (Some "seen")).
  - reflexivity.
  - reflexivity.
  - intros t' Hin. apply elem_of_cons in Hin as [->|Hin]; [by split|].
    apply list_elem_of_singleton in Hin as ->. by split.
  - reflexivity.
Defined.

Lemma dom_transition_map_loop (mapping : gmap string Transition) ts :
  dom (transition_map_loop mapping ts)
  = dom mapping ∪ list_to_set (key_of <$> ts).
Proof.
  revert mapping. induction ts as [|t ts IH]; intros mapping.
  - cbn. by rewrite (right_id_L ∅ (∪)).
  - change (transition_map_loop mapping (t :: ts))
      with (transition_map_loop (<[key_of t := t]> mapping) ts).
    rewrite IH, dom_insert_L. cbn [fmap list_fmap list_to_set].
    by rewrite (comm_L (∪) {[key_of t]}), (assoc_L (∪)).
Qed.

Lemma size_list_to_set_le (l : list string) :
  (size (list_to_set l : gset string) ≤ length l)%nat
  ∧ (size (list_to_set l : gset string) = length l ↔ NoDup l).
Proof.
  induction l as [|x l [IHle IHeq]].
  - split; [done|]. split; [constructor|done].
  - cbn [list_to_set length]. destruct (decide (x ∈ l)) as [Hin|Hnotin].
    + assert ({[x]} ∪ list_to_set l = (list_to_set l : gset string)) as ->.
      { apply subseteq_union_1_L, singleton_subseteq_l.
        by apply elem_of_list_to_set. }
      split; [lia|]. split; [lia|]. intros [? _]%NoDup_cons. done.
    + rewrite size_union, size_singleton
        by (apply disjoint_singleton_l; by rewrite elem_of_list_to_set).
      split; [lia|]. rewrite NoDup_cons. split.
      * intros Hsize. split; [done|]. apply IHeq. lia.
      * intros [_ Hnd]. apply IHeq in Hnd. lia.
Qed.

(** X5. The table has one entry for each key that occurs in the list: at
    most as many entries as there are rules, and exactly as many if and
    only if no two rules have the same key (no rule is overwritten). *)
Theorem transition_map_size (specification : MachineSpecification) :
  (size (transition_map specification)
   ≤ length (transitions specification))%nat
  ∧ (size (transition_map specification) = length (transitions specification)
     ↔ NoDup (key_of <$> transitions specification))
  ∧ dom (transition_map specification)
    = list_to_set (key_of <$> transitions specification).
Proof.
  assert (dom (transition_map specification)
          = list_to_set (key_of <$> transitions specification)) as Hdom.
  { unfold transition_map.
    by rewrite dom_transition_map_loop, dom_empty_L, (left_id_L ∅ (∪)). }
  pose proof (size_list_to_set_le (key_of <$> transitions specification))
    as [Hle Heq].
  rewrite <- size_dom, Hdom. rewrite length_fmap in Hle, Heq.
  done.
Qed.

End Keys.

(** ** More on the tape *)

Section MoreTape.

Implicit Types (self : Tape.t) (p q position index : Z) (x y blank : string).

(** The loop of [__init__] binds position [index + i] to the [i]-th
    character. *)
Lemma init_loop_cells_inside input : ∀ index self (i : nat) ch,
  String.get i input = Some ch →
  Tape.cells (Tape.init_loop index input self) !! (index + Z.of_nat i)
  = Some (String ch EmptyString).
Proof.
  induction input as [|c rest IH]; intros index self i ch Hget; [done|].
  cbn [Tape.init_loop]. destruct i as [|i].
  - injection Hget as ->. rewrite init_loop_cells_outside by lia.
    cbn. replace (index + Z.of_nat 0) with index by lia.
    apply lookup_insert_eq.
  - cbn in Hget.
    replace (index + Z.of_nat (S i)) with (index + 1 + Z.of_nat i) by lia.
    by apply IH.
Qed.

(** X6. On a fresh tape, position [i] reads as the [i]-th character of the
    input string. *)
Theorem init_reads_input blank input (i : nat) ch :
  String.get i input = Some ch →
  fst (Tape.read (Tape.init blank input) (Z.of_nat i)) = String ch EmptyString.
Proof.
  intros Hget. unfold Tape.read, Tape.init. cbn [fst].
  destruct input as [|c rest]; [done|].
  pose proof (init_loop_cells_inside _ 0 (Tape.mk blank ∅ 0 0) i ch Hget) as H.
  rewrite Z.add_0_l in H. by rewrite H.
Qed.

Lemma init_reads_input_witness :
  fst (Tape.read (Tape.init "_" "abc") (Z.of_nat 2)) = "c".
Proof. apply (init_reads_input "_" "abc" 2). reflexivity. Defined.

(** X7. A write leaves every other position as it reads; a second write at
    the same position replaces the first; writes at different positions
    can be made in either order. *)
Theorem writes_compose self p q x y :
  (q ≠ p → fst (Tape.read (Tape.write self p x) q) = fst (Tape.read self q))
  ∧ Tape.write (Tape.write self p x) p y = Tape.write self p y
  ∧ (p ≠ q →
     Tape.write (Tape.write self p x) q y
     = Tape.write (Tape.write self q y) p x).
Proof.
  split; [|split].
  - intros Hne. unfold Tape.read, Tape.write. cbn.
    by rewrite lookup_insert_ne.
  - unfold Tape.write. cbn. f_equal; [apply insert_insert_eq|lia|lia].
  - intros Hne. unfold Tape.write. cbn.
    f_equal; [by apply insert_insert_ne|lia|lia].
Qed.

Lemma writes_compose_witness :
  fst (Tape.read (Tape.write (Tape.init "_" "ab") 3 "x") 1) = "b"
  ∧ Tape.write (Tape.write (Tape.init "_" "ab") 3 "x") (-2) "y"
    = Tape.write (Tape.write (Tape.init "_" "ab") (-2) "y") 3 "x".
Proof.
  destruct (writes_compose (Tape.init "_" "ab") 3 1 "x" "y")
    as (Hframe & _ & _).
  destruct (writes_compose (Tape.init "_" "ab") 3 (-2) "x" "y")
    as (_ & _ & Hcomm).
  split.
  - rewrite Hframe; [reflexivity|lia].
  - apply Hcomm. lia.
Defined.

Lemma init_bounded blank input : tape_bounded (Tape.init blank input).
Proof.
  unfold tape_bounded, Tape.init. destruct input as [|c rest].
  - cbn. split; [lia|]. intros p [x Hp].
    destruct (decide (0 = p)) as [<-|Hne]; [lia|].
    by rewrite lookup_insert_ne, lookup_empty in Hp.
  - rewrite init_loop_min_index, init_loop_max_index. cbn [Tape.min_index].
    split; [cbn [String.length]; lia|]. intros p [x Hp].
    destruct (decide (p < 0 ∨ 0 + Z.of_nat (String.length (String c rest)) ≤ p))
      as [Hout|Hin]; [|lia].
    rewrite init_loop_cells_outside in Hp by done. cbn in Hp.
    by rewrite lookup_empty in Hp.
Qed.

Lemma write_bounded self p x :
  tape_bounded self → tape_bounded (Tape.write self p x).
Proof.
  intros [H0 Hcells]. unfold tape_bounded, Tape.write. cbn.
  split; [lia|]. intros q Hq.
  destruct (decide (p = q)) as [->|Hne]; [lia|].
  rewrite lookup_insert_ne in Hq by done. apply Hcells in Hq. lia.
Qed.

(** X8. On the tape built from an input string and changed by any sequence
    of writes, [min_index <= 0 <= max_index], and every position that has a
    cell lies between [min_index] and [max_index]. *)
Theorem tape_bounds_invariant blank input ws :
  tape_bounded (write_all (Tape.init blank input) ws).
Proof.
  induction ws as [|[p x] ws IH] using rev_ind; [apply init_bounded|].
  rewrite write_all_snoc. by apply write_bounded.
Qed.

Lemma length_append (x y : string) :
  String.length (x +:+ y) = (String.length x + String.length y)%nat.
Proof.
  induction x as [|ch x IH]; [by rewrite append_nil|].
  rewrite append_cons. cbn. by rewrite IH.
Qed.

Lemma length_concat_empty (l : list string) :
  String.length (String.concat "" l) = sum_list (String.length <$> l).
Proof.
  induction l as [|x [|y l] IH]; [done|cbn; lia|].
  change (String.concat "" (x :: y :: l))
    with (x +:+ "" +:+ String.concat "" (y :: l)).
  rewrite !length_append, IH. done.
Qed.

(** The loop of [view] appends the text of each cell of the range. *)
Lemma view_loop_cells head_position (l : list Z) :
  ∀ (acc : list string) self,
  fst (foldl (Tape.view_step head_position) (acc, self) l)
  = (acc ++ (render_cell self head_position <$> l))%list.
Proof.
  induction l as [|index l IH]; intros acc self; [by rewrite app_nil_r|].
  cbn [foldl fmap list_fmap]. unfold Tape.view_step at 2.
  cbn [Tape.read fst snd].
  destruct (index =? head_position) eqn:Hhead; rewrite IH;
    rewrite <- app_assoc; cbn [app]; unfold render_cell at 2;
    cbn [Tape.read fst]; by rewrite Hhead.
Qed.

Lemma view_cells self head_position radius :
  fst (Tape.view self head_position radius)
  = String.concat ""
      (render_cell self head_position
       <$> Tape.range (Z.min (Tape.min_index self) (head_position - radius))
             (Z.max (Tape.max_index self) (head_position + radius) + 1)).
Proof.
  unfold Tape.view. cbv zeta.
  pose proof (view_loop_cells head_position
    (Tape.range (Z.min (Tape.min_index self) (head_position - radius))
                (Z.max (Tape.max_index self) (head_position + radius) + 1))
    [] self) as H.
  destruct (foldl _ _ _) as [cells self']. cbn in H. by subst.
Qed.

(** Away from the head, cells of one character add one character each. *)
Lemma render_length_away self head_position (l : list Z) :
  String.length (Tape.blank_symbol self) = 1%nat →
  (∀ p x, Tape.cells self !! p = Some x → String.length x = 1%nat) →
  (∀ index, index ∈ l → index ≠ head_position) →
  sum_list (String.length <$> (render_cell self head_position <$> l))
  = length l.
Proof.
  intros Hblank Hcells. induction l as [|index l IH]; intros Hl; [done|].
  cbn [fmap list_fmap sum_list_with length]. rewrite IH.
  - assert (String.length (render_cell self head_position index) = 1%nat)
      as ->; [|done].
    unfold render_cell, Tape.read. cbn [fst].
    rewrite (proj2 (Z.eqb_neq _ _)) by (apply Hl; left).
    destruct (Tape.cells self !! index) as [x|] eqn:Hx; cbn [default]; eauto.
  - intros i Hi. apply Hl. by right.
Qed.

(** X9. With one-character symbols and a radius that is not negative, the
    text of a view has one character for each position from
    [min(min_index, head - radius)] to [max(max_index, head + radius)] and
    two more for the brackets around the head: at least [2 * radius + 3]
    characters. *)
Theorem view_length self head_position radius :
  0 ≤ radius →
  String.length (Tape.blank_symbol self) = 1%nat →
  (∀ p x, Tape.cells self !! p = Some x → String.length x = 1%nat) →
  Z.of_nat (String.length (fst (Tape.view self head_position radius)))
  = Z.max (Tape.max_index self) (head_position + radius)
    - Z.min (Tape.min_index self) (head_position - radius) + 3
  ∧ 2 * radius + 3
    ≤ Z.of_nat (String.length (fst (Tape.view self head_position radius))).
Proof.
  intros Hradius Hblank Hcells.
  set (start := Z.min (Tape.min_index self) (head_position - radius)).
  set (end_ := Z.max (Tape.max_index self) (head_position + radius)).
  assert (Z.of_nat (String.length (fst (Tape.view self head_position radius)))
          = end_ - start + 3) as Hlen; [|split; [exact Hlen|lia]].
  rewrite view_cells, length_concat_empty.
  fold start. fold end_.
  assert (start ≤ head_position ≤ end_) as Hhead by lia.
  unfold Tape.range.
  replace (end_ + 1 - start)
    with ((head_position - start) + (1 + (end_ - head_position))) by lia.
  rewrite seqZ_app by lia.
  rewrite (seqZ_cons _ (1 + _)) by lia.
  rewrite !fmap_app, !fmap_cons, sum_list_with_app. cbn [sum_list_with].
  rewrite !render_length_away; try done.
  - rewrite !length_seqZ.
    replace (start + (head_position - start)) with head_position by lia.
    unfold render_cell. rewrite Z.eqb_refl.
    rewrite !length_append.
    assert (String.length (fst (Tape.read self head_position)) = 1%nat) as ->.
    { unfold Tape.read. cbn [fst].
      destruct (Tape.cells self !! head_position) as [x|] eqn:Hx;
        cbn [default]; eauto. }
    unfold id. cbn [String.length]. lia.
  - intros index Hi%elem_of_seqZ. lia.
  - intros index Hi%elem_of_seqZ. lia.
Qed.

Lemma view_length_witness :
  Z.of_nat (String.length
              (fst (Tape.view (Tape.init "_" "abc") 0 Tape.default_radius)))
  = 43.
Proof.
  destruct (view_length (Tape.init "_" "abc") 0 Tape.default_radius)
    as [Hlen _].
  - unfold Tape.default_radius. lia.
  - reflexivity.
  - intros p x Hp.
    destruct (decide (p = 0)) as [->|?]; [by injection Hp as <-|].
    destruct (decide (p = 1)) as [->|?]; [by injection Hp as <-|].
    destruct (decide (p = 2)) as [->|?]; [by injection Hp as <-|].
    cbn in Hp. rewrite !lookup_insert_ne, lookup_empty in Hp by done. done.
  - rewrite Hlen. reflexivity.
Defined.

End MoreTape.

(** ** More on the run *)

Section MoreRun.

Variable self : TuringMachine.

Implicit Types (fr : Frame) (n k fuel : nat) (max_steps : Z) (c : bool).
Implicit Types (r : Result.MachineResult).

(** What a transition step leaves, field by field. *)
Lemma transition_step_Some c fr fr' :
  transition_step self c fr = Some fr' →
  ∃ t, fst (_next_transition self (state fr)
              (fst (Tape.read (tape fr) (head_position fr))) (memory fr))
       = Some t
       ∧ tape fr' = Tape.write (tape fr) (head_position fr) (write_symbol t)
       ∧ state fr' = next_state t
       ∧ head_position fr'
         = (if String.eqb (movement t) "R" then head_position fr + 1
            else if String.eqb (movement t) "L" then head_position fr - 1
            else head_position fr)
       ∧ memory fr' = match next_memory t with
                      | Some m => Some m
                      | None => memory fr
                      end
       ∧ steps fr' = steps fr + 1.
Proof.
  unfold transition_step. cbn [Tape.read fst].
  destruct (fst (_next_transition _ _ _ _)) as [t|]; [|done].
  intros [= <-]. exists t. unfold apply_transition. rewrite capture_frame.
  done.
Qed.

(** A property of frames that every transition step keeps holds after any
    number of them. *)
Lemma after_transitions_invariant c (P : Frame → Prop) n : ∀ fr fr',
  P fr →
  (∀ fr1 fr2, P fr1 → transition_step self c fr1 = Some fr2 → P fr2) →
  after_transitions self c n fr = Some fr' → P fr'.
Proof.
  induction n as [|n IH]; intros fr fr' HP Hkeep Hafter.
  - by injection Hafter as <-.
  - destruct (after_transitions_last _ _ _ _ _ Hafter) as (fr_n & Hn & Hstep).
    eapply Hkeep; [|exact Hstep]. by eapply IH.
Qed.

(** Emptying the snapshots commutes with a transition step made without
    snapshots. *)
Lemma transition_step_without_ids c fr :
  transition_step self false (without_ids fr)
  = without_ids <$> transition_step self c fr.
Proof.
  unfold transition_step. cbn [Tape.read fst without_ids tape state
    head_position memory steps ids].
  destruct (fst (_next_transition _ _ _ _)) as [t|]; [|done].
  cbn [fmap option_fmap option_map]. f_equal.
  unfold apply_transition. rewrite !capture_frame. done.
Qed.

Lemma while_loop_without_ids max_steps : ∀ fuel fr,
  while_loop max_steps false fuel self (without_ids fr)
  = prod_map result_without_ids id
    <$> while_loop max_steps true fuel self fr.
Proof.
  induction fuel as [|fuel IH]; intros fr.
  - cbn [while_loop without_ids steps].
    by destruct (steps fr <? max_steps).
  - rewrite !while_loop_unfold, (transition_step_without_ids true).
    cbn [without_ids steps]. destruct (steps fr <? max_steps); [|done].
    destruct (transition_step self true fr) as [fr1|];
      cbn [fmap option_fmap option_map]; [|done].
    cbn [without_ids state]. destruct (in_final_states self (state fr1)); [done|].
    apply IH.
Qed.

End MoreRun.

(** X10. Turning the snapshots off changes nothing but the list of
    snapshots: the run returns the same [accepted], [halted], [reason] and
    [steps], and an empty list. *)
Theorem run_without_snapshots
  (self : TuringMachine) (input_string : string) (max_steps : Z) :
  ∃ r_on r_off,
    run self input_string max_steps true = Some (r_on, self)
    ∧ run self input_string max_steps false = Some (r_off, self)
    ∧ Result.accepted r_off = Result.accepted r_on
    ∧ Result.halted r_off = Result.halted r_on
    ∧ Result.reason r_off = Result.reason r_on
    ∧ Result.steps r_off = Result.steps r_on
    ∧ Result.ids r_off = [].
Proof.
  destruct (run_ending self input_string max_steps true)
    as (n & fr & r & Hrun & _).
  exists r, (result_without_ids r). split; [exact Hrun|]. split; [|done].
  unfold run, run_fuel in *.
  replace (capture false (initial_frame self input_string))
    with (without_ids (capture true (initial_frame self input_string)))
    by (by rewrite capture_frame).
  by rewrite while_loop_without_ids, Hrun.
Qed.

Section MoreRunResults.

Variable self : TuringMachine.
Variable input_string : string.
Variable max_steps : Z.

Implicit Types (fr : Frame) (n k fuel : nat) (c : bool).
Implicit Types (r : Result.MachineResult).

(** The loop starts on the frame left by the first [capture()]. *)
Local Abbreviation start c := (capture c (initial_frame self input_string)).

(** A run that enters a final state with its [n + 1]-st application. *)
Lemma while_loop_accepted c : ∀ n fuel fr fr',
  after_transitions self c (S n) fr = Some fr' →
  steps fr + Z.of_nat (S n) ≤ max_steps →
  (n < fuel)%nat →
  (∀ k fr_k, (1 ≤ k ≤ n)%nat →
     after_transitions self c k fr = Some fr_k →
     in_final_states self (state fr_k) = false) →
  in_final_states self (state fr') = true →
  while_loop max_steps c fuel self fr = Some (accepted_result fr', self).
Proof.
  induction n as [|n IH]; intros fuel fr fr' Hafter Hle Hfuel Hmid Hfinal;
    (destruct fuel as [|fuel]; [lia|]);
    rewrite while_loop_unfold, (proj2 (Z.ltb_lt _ _)) by lia;
    rewrite after_transitions_front in Hafter;
    destruct (transition_step self c fr) as [fr1|] eqn:Hstep; try done.
  - injection Hafter as ->. by rewrite Hfinal.
  - rewrite (Hmid 1%nat fr1);
      [|lia|by cbn [after_transitions]; rewrite Hstep].
    apply (IH fuel fr1 fr'); [done| |lia| |done].
    + rewrite (transition_step_steps _ _ _ _ Hstep). lia.
    + intros k fr_k Hk Hfr_k. apply (Hmid (S k)); [lia|].
      by rewrite after_transitions_front, Hstep.
Qed.

(** The run with its frames: the result, the [n] applications behind it,
    and what is known of the frames on the way. *)
Lemma run_frames c :
  ∃ n fr r,
    run self input_string max_steps c = Some (r, self)
    ∧ after_transitions self c n (start c) = Some fr
    ∧ Ending self c max_steps n fr r
    ∧ Result.steps r = Z.of_nat n
    ∧ Result.ids r = ids fr
    ∧ Z.of_nat n ≤ Z.max 0 max_steps
    ∧ (∀ k fr_k, (1 ≤ k < n)%nat →
         after_transitions self c k (start c) = Some fr_k →
         in_final_states self (state fr_k) = false).
Proof.
  destruct (while_loop_ending self c max_steps (Z.to_nat max_steps) (start c))
    as (n & fr & r & Hloop & Hafter & Hend & Hbound & Hmid).
  { rewrite initial_steps. lia. }
  exists n, fr, r.
  pose proof (after_transitions_steps _ _ _ _ _ Hafter) as Hsteps.
  rewrite initial_steps in Hsteps, Hbound.
  split; [exact Hloop|]. split; [exact Hafter|]. split; [exact Hend|].
  split; [|split; [|split; [lia|exact Hmid]]].
  - destruct Hend as [_ _ ->|_ _ _ ->|_ _ ->]; cbn; lia.
  - by destruct Hend as [_ _ ->|_ _ _ ->|_ _ ->].
Qed.

(** With snapshots on, entry [k] of the result is the snapshot of the frame
    after [k] applications. *)
Lemma run_snapshot_frames r self' k id :
  run self input_string max_steps true = Some (r, self') →
  Result.ids r !! k = Some id →
  ∃ fr_k, after_transitions self true k (start true) = Some fr_k
          ∧ id = snapshot fr_k
          ∧ (k ≤ Z.to_nat (Result.steps r))%nat.
Proof.
  intros Hrun Hid.
  destruct (run_frames true)
    as (n & fr & r' & Hrun' & Hafter & _ & Hsteps & Hids & _).
  rewrite Hrun' in Hrun. injection Hrun as -> <-.
  destruct (after_transitions_ids self true eq_refl _ _ _ Hafter)
    as (Hlen & Hold & Hnew).
  rewrite (initial_ids self input_string true) in Hlen, Hold, Hnew.
  cbn [length] in Hlen, Hold, Hnew.
  rewrite Hids in Hid. pose proof (lookup_lt_Some _ _ _ Hid) as Hk.
  destruct (after_transitions_prefix self true n k _ fr Hafter) as [fr_k Hfr_k];
    [lia|].
  exists fr_k. split; [exact Hfr_k|]. split; [|lia].
  destruct k as [|k].
  - injection Hfr_k as <-. rewrite Hold in Hid by lia. by injection Hid as <-.
  - pose proof (Hnew (S k) fr_k ltac:(lia) Hfr_k) as Hsnap.
    replace (1 + S k - 1)%nat with (S k) in Hsnap by lia. congruence.
Qed.

End MoreRunResults.

(** X11. The result of [run] has [steps] between 0 and the step limit;
    [accepted] implies [halted]; the reason text tells the three outcomes
    apart; a run that did not halt made exactly [max_steps] steps (none for
    a limit that is not positive); and a limit that is not positive always
    gives that outcome, whatever the machine. *)
Theorem result_shape
  (self : TuringMachine) (input_string : string) (max_steps : Z)
  (capture_ids : bool) :
  ∃ r, run self input_string max_steps capture_ids = Some (r, self)
       ∧ 0 ≤ Result.steps r ≤ Z.max 0 max_steps
       ∧ (Result.accepted r = true → Result.halted r = true)
       ∧ (Result.accepted r = true ↔ Result.reason r = reason_final)
       ∧ (Result.halted r = false ↔ Result.reason r = reason_step_limit)
       ∧ (Result.halted r = false → Result.steps r = Z.max 0 max_steps)
       ∧ (Result.halted r = true → Result.accepted r = false →
          Result.steps r < max_steps)
       ∧ (max_steps ≤ 0 → Result.halted r = false).
Proof.
  destruct (run_ending self input_string max_steps capture_ids)
    as (n & fr & r & Hrun & Hafter & Hend & Hsteps & _ & Hbound).
  pose proof (after_transitions_steps _ _ _ _ _ Hafter) as Hfr.
  rewrite initial_steps in Hfr.
  exists r. split; [exact Hrun|]. split; [lia|].
  destruct Hend as [Hle _ ->|Hlt _ _ ->|Hn Hfinal ->];
    unfold no_transition_result; cbn;
    try destruct (in_final_states self (state fr));
    repeat split; try done; try lia.
Qed.

(** X12. A run that halted keeps its result under any larger step limit. *)
Theorem halted_result_stable
  (self : TuringMachine) (input_string : string) (max_steps max_steps' : Z)
  (capture_ids : bool) (r : Result.MachineResult) (self' : TuringMachine) :
  run self input_string max_steps capture_ids = Some (r, self') →
  Result.halted r = true →
  max_steps ≤ max_steps' →
  run self input_string max_steps' capture_ids = Some (r, self).
Proof.
  intros Hrun Hhalted Hle.
  destruct (run_frames self input_string max_steps capture_ids)
    as (n & fr & r' & Hrun' & Hafter & Hend & Hsteps & _ & Hbound & Hmid).
  rewrite Hrun' in Hrun. injection Hrun as -> <-.
  pose proof (after_transitions_steps _ _ _ _ _ Hafter) as Hfr.
  rewrite initial_steps in Hfr.
  assert (∀ k fr_k, (1 ≤ k ≤ n)%nat → k ≠ n →
            after_transitions self capture_ids k
              (capture capture_ids (initial_frame self input_string))
            = Some fr_k →
            in_final_states self (state fr_k) = false) as Hmid'.
  { intros k fr_k Hk Hne. apply Hmid. lia. }
  unfold run, run_fuel.
  destruct Hend as [_ _ ->|Hlt Hnf Hnone ->|Hn Hfinal ->]; [done| |].
  - apply (while_loop_no_transition self capture_ids max_steps' n);
      [done|rewrite initial_steps; lia|lia| |done].
    intros k fr_k Hk Hfr_k. destruct (decide (k = n)) as [->|Hne].
    + rewrite Hafter in Hfr_k. injection Hfr_k as <-. apply Hnf. lia.
    + by apply (Hmid' k).
  - destruct n as [|n]; [done|].
    apply (while_loop_accepted self max_steps' capture_ids n);
      [done|rewrite initial_steps; lia|lia| |done].
    intros k fr_k Hk Hfr_k. apply (Hmid' k); [lia|lia|done].
Qed.

Lemma halted_result_stable_witness :
  ∃ r, run (TuringMachine_init Samples.unary) "1" 1 false
       = Some (r, TuringMachine_init Samples.unary)
       ∧ run (TuringMachine_init Samples.unary) "1" 10000 false
         = Some (r, TuringMachine_init Samples.unary).
Proof.
  eexists. split; [reflexivity|].
  apply (halted_result_stable (TuringMachine_init Samples.unary) "1" 1 10000
           false _ (TuringMachine_init Samples.unary));
    [reflexivity|reflexivity|lia].
Defined.

(** X13. With snapshots on, entry [k] of the result carries the step number
    [k], and its head position is at most [k] cells from the origin. *)
Theorem snapshot_step_and_head
  (self : TuringMachine) (input_string : string) (max_steps : Z)
  (r : Result.MachineResult) (self' : TuringMachine)
  (k : nat) (id : ID.InstantaneousDescription) :
  run self input_string max_steps true = Some (r, self') →
  Result.ids r !! k = Some id →
  ID.step id = Z.of_nat k
  ∧ - Z.of_nat k ≤ ID.head_position id ≤ Z.of_nat k.
Proof.
  intros Hrun Hid.
  destruct (run_snapshot_frames _ _ _ _ _ _ _ Hrun Hid)
    as (fr_k & Hfr_k & -> & _).
  pose proof (after_transitions_steps _ _ _ _ _ Hfr_k) as Hsteps.
  rewrite initial_steps in Hsteps. cbn [snapshot ID.step ID.head_position].
  split; [lia|]. replace (Z.of_nat k) with (steps fr_k) by lia.
  apply (after_transitions_invariant self true
           (λ fr, - steps fr ≤ head_position fr ≤ steps fr) k _ _)
    in Hfr_k; [lia| |].
  - rewrite capture_frame. cbn. lia.
  - intros fr1 fr2 Hbound (t & _ & _ & _ & Hhead & _ & Hst)%transition_step_Some.
    rewrite Hhead, Hst.
    destruct (String.eqb (movement t) "R"); [lia|].
    destruct (String.eqb (movement t) "L"); lia.
Qed.

Lemma snapshot_step_and_head_witness :
  ∃ r id,
    run (TuringMachine_init Samples.runner) "a" 5 true
    = Some (r, TuringMachine_init Samples.runner)
    ∧ Result.ids r !! 3%nat = Some id
    ∧ ID.step id = Z.of_nat 3
    ∧ - Z.of_nat 3 ≤ ID.head_position id ≤ Z.of_nat 3.
Proof.
  eexists. eexists.
  split; [vm_compute; reflexivity|]. split; [vm_compute; reflexivity|].
  eapply (snapshot_step_and_head (TuringMachine_init Samples.runner) "a" 5
            _ _ 3%nat).
  - vm_compute. reflexivity.
  - vm_compute. reflexivity.
Defined.

(** X14. For a positive step limit and with snapshots on, [accepted] says
    whether the state of the last snapshot is final, and no snapshot
    between the first and the last has a final state: the run stops at the
    first final state it enters. *)
Theorem accepted_iff_last_state_final
  (self : TuringMachine) (input_string : string) (max_steps : Z) :
  0 < max_steps →
  ∃ r id,
    run self input_string max_steps true = Some (r, self)
    ∧ last (Result.ids r) = Some id
    ∧ (Result.accepted r = true ↔ ID.state id ∈ final_states (spec self))
    ∧ (∀ k id_k, (1 ≤ k < Z.to_nat (Result.steps r))%nat →
         Result.ids r !! k = Some id_k →
         ID.state id_k ∉ final_states (spec self)).
Proof.
  intros Hpos.
  destruct (run_frames self input_string max_steps true)
    as (n & fr & r & Hrun & Hafter & Hend & Hsteps & Hids & Hbound & Hmid).
  pose proof (after_transitions_steps _ _ _ _ _ Hafter) as Hfr.
  rewrite initial_steps in Hfr.
  destruct (after_transitions_ids self true eq_refl _ _ _ Hafter)
    as (Hlen & Hold & Hnew).
  rewrite (initial_ids self input_string true) in Hlen, Hold, Hnew.
  cbn [length] in Hlen, Hold, Hnew.
  exists r, (snapshot fr). split; [exact Hrun|]. split; [|split].
  - rewrite Hids, last_lookup, Hlen. cbn [Nat.pred Nat.add].
    destruct n as [|n].
    + injection Hafter as <-. by rewrite Hold by lia.
    + pose proof (Hnew (S n) fr ltac:(lia) Hafter) as Hsnap.
      by replace (1 + S n - 1)%nat with (S n) in Hsnap by lia.
  - cbn [snapshot ID.state].
    rewrite <- (bool_decide_eq_true (state fr ∈ final_states (spec self))).
    fold (in_final_states self (state fr)).
    destruct Hend as [Hle Hnf ->|Hlt _ _ ->|Hn Hfinal ->]; cbn.
    + rewrite Hnf by (intros ->; lia). done.
    + done.
    + by rewrite Hfinal.
  - intros k id_k Hk Hid.
    destruct (run_snapshot_frames _ _ _ _ _ _ _ Hrun Hid)
      as (fr_k & Hfr_k & -> & _).
    cbn [snapshot ID.state].
    apply (Hmid k fr_k) in Hfr_k; [|lia].
    unfold in_final_states in Hfr_k. by apply bool_decide_eq_false in Hfr_k.
Qed.

Lemma accepted_iff_last_state_final_witness :
  ∃ r id,
    run (TuringMachine_init Samples.unary) "1" 10 true
    = Some (r, TuringMachine_init Samples.unary)
    ∧ last (Result.ids r) = Some id
    ∧ (Result.accepted r = true
       ↔ ID.state id ∈ final_states (spec (TuringMachine_init Samples.unary))).
Proof.
  destruct (accepted_iff_last_state_final
              (TuringMachine_init Samples.unary) "1" 10)
    as (r & id & Hrun & Hlast & Hacc & _); [lia|].
  exists r, id. split; [exact Hrun|]. split; [exact Hlast|exact Hacc].
Defined.

Lemma next_transition_In (specification : MachineSpecification)
  (s c : string) (memory : option string) (t : Transition) :
  fst (_next_transition (TuringMachine_init specification) s c memory) = Some t →
  t ∈ transitions specification.
Proof.
  rewrite next_transition_lookup. cbn. unfold transition_map.
  destruct (transition_map_loop ∅ _ !! _transition_key s c memory)
    as [t1|] eqn:Hexact.
  - intros [= ->]. by apply transition_map_loop_Some in Hexact as [? _].
  - by intros [? _]%transition_map_loop_Some.
Qed.

(** X15. With snapshots on, the state of every snapshot is the initial
    state or the [next_state] of a declared rule, and its memory is the
    initial memory or the [next_memory] of a declared rule. *)
Theorem snapshot_state_and_memory_declared
  (specification : MachineSpecification) (input_string : string)
  (max_steps : Z) (r : Result.MachineResult) (self' : TuringMachine)
  (k : nat) (id : ID.InstantaneousDescription) :
  run (TuringMachine_init specification) input_string max_steps true
  = Some (r, self') →
  Result.ids r !! k = Some id →
  (ID.state id = spec_initial_state specification
   ∨ ∃ t, t ∈ transitions specification ∧ ID.state id = next_state t)
  ∧ (ID.memory id = spec_initial_memory specification
     ∨ ∃ t m, t ∈ transitions specification
              ∧ next_memory t = Some m ∧ ID.memory id = Some m).
Proof.
  intros Hrun Hid.
  destruct (run_snapshot_frames _ _ _ _ _ _ _ Hrun Hid)
    as (fr_k & Hfr_k & -> & _).
  cbn [snapshot ID.state ID.memory].
  apply (after_transitions_invariant (TuringMachine_init specification) true
           (λ fr,
              (state fr = spec_initial_state specification
               ∨ ∃ t, t ∈ transitions specification ∧ state fr = next_state t)
              ∧ (memory fr = spec_initial_memory specification
                 ∨ ∃ t m, t ∈ transitions specification
                          ∧ next_memory t = Some m ∧ memory fr = Some m))
           k _ _) in Hfr_k; [done| |].
  - rewrite capture_frame. cbn. auto.
  - intros fr1 fr2 [_ Hmem]
      (t & Hres & _ & Hstate & _ & Hmemory & _)%transition_step_Some.
    apply next_transition_In in Hres. split; [right; by exists t|].
    rewrite Hmemory. destruct (next_memory t) as [m|] eqn:Hm; [|done].
    right. by exists t, m.
Qed.

Lemma snapshot_state_and_memory_declared_witness :
  ∃ r id,
    run (TuringMachine_init Samples.with_memory) "0" 5 true
    = Some (r, TuringMachine_init Samples.with_memory)
    ∧ Result.ids r !! 1%nat = Some id
    ∧ (ID.state id = spec_initial_state Samples.with_memory
       ∨ ∃ t, t ∈ transitions Samples.with_memory ∧ ID.state id = next_state t)
    ∧ (ID.memory id = spec_initial_memory Samples.with_memory
       ∨ ∃ t m, t ∈ transitions Samples.with_memory
                ∧ next_memory t = Some m ∧ ID.memory id = Some m).
Proof.
  eexists. eexists.
  split; [vm_compute; reflexivity|]. split; [vm_compute; reflexivity|].
  eapply (snapshot_state_and_memory_declared Samples.with_memory "0" 5
            _ _ 1%nat).
  - vm_compute. reflexivity.
  - vm_compute. reflexivity.
Defined.

(** ** The batch driver *)

Section Simulate.

Variable self : TuringMachine.
Variable max_steps : Z.
Variable capture_ids : bool.

Lemma run_returns (input_string : string) :
  ∃ r, run self input_string max_steps capture_ids = Some (r, self).
Proof.
  destruct (run_ending self input_string max_steps capture_ids)
    as (n & fr & r & Hrun & _).
  by exists r.
Qed.

(** The loop returns; it binds each input of the list to the result of its
    run and leaves the other entries as they were. *)
Lemma simulate_loop_results (inputs : list string) :
  ∀ results : gmap string Result.MachineResult,
  ∃ results',
    simulate_loop self max_steps capture_ids inputs results
    = Some (results', self)
    ∧ (∀ s, s ∈ inputs →
            ∃ r, run self s max_steps capture_ids = Some (r, self)
                 ∧ results' !! s = Some r)
    ∧ (∀ s, s ∉ inputs → results' !! s = results !! s).
Proof.
  induction inputs as [|input_string inputs IH]; intros results.
  - exists results. split; [done|]. split; [|done].
    intros s Hs. by apply elem_of_nil in Hs.
  - cbn [simulate_loop].
    destruct (run_returns input_string) as [r Hrun]. rewrite Hrun.
    destruct (IH (<[input_string := r]> results))
      as (results' & Hloop & Hin & Hout).
    exists results'. split; [exact Hloop|]. split.
    + intros s Hs. destruct (decide (s ∈ inputs)) as [Hlater|Hnot].
      * by apply Hin.
      * apply elem_of_cons in Hs as [->|Hs]; [|done].
        exists r. split; [exact Hrun|].
        rewrite Hout by done. apply lookup_insert_eq.
    + intros s Hs. apply not_elem_of_cons in Hs as [Hne Hnot].
      rewrite Hout by done. by apply lookup_insert_ne.
Qed.

(** X16. [simulate_inputs] returns a dictionary that binds every input
    string of the list to the result of its run and binds nothing else, so
    a string that occurs twice has one entry; it hands the machine back as
    it was. Without a list it runs the [simulation_strings] of the
    specification, and with the empty list it returns the empty
    dictionary. *)
Theorem simulate_inputs_results (inputs : option (list string)) :
  ∃ results,
    simulate_inputs self inputs max_steps capture_ids = Some (results, self)
    ∧ (∀ s, s ∈ default (simulation_strings (spec self)) inputs →
            ∃ r, run self s max_steps capture_ids = Some (r, self)
                 ∧ results !! s = Some r)
    ∧ (∀ s, s ∉ default (simulation_strings (spec self)) inputs →
            results !! s = None)
    ∧ (size results
       ≤ length (default (simulation_strings (spec self)) inputs))%nat
    ∧ (inputs = Some [] → results = ∅).
Proof.
  unfold simulate_inputs.
  assert (default (simulation_strings (spec self)) inputs
          = match inputs with
            | Some inputs => inputs
            | None => simulation_strings (spec self)
            end) as <- by (by destruct inputs).
  set (l := default (simulation_strings (spec self)) inputs).
  destruct (simulate_loop_results l ∅) as (results & Hloop & Hin & Hout).
  exists results. split; [exact Hloop|]. split; [exact Hin|].
  split; [|split].
  - intros s Hs. by rewrite Hout, lookup_empty.
  - assert (dom results ⊆ (list_to_set l : gset string)) as Hdom.
    { intros s Hs. apply elem_of_list_to_set.
      destruct (decide (s ∈ l)) as [?|Hnot]; [done|].
      apply elem_of_dom in Hs as [r Hs].
      by rewrite Hout, lookup_empty in Hs. }
    rewrite <- size_dom. etrans; [by apply subseteq_size|].
    apply size_list_to_set_le.
  - intros ->. apply map_eq. intros s. rewrite lookup_empty.
    apply Hout. subst l. cbn. apply not_elem_of_nil.
Qed.

End Simulate.

(** ** simple_yaml.py: stripping comments *)

Section StripComments.

Import SimpleYaml.

Implicit Types (line s a b q x : string) (char : ascii).















End StripComments.
